(** * Input data parsing of the ranking library (tensorflow_ranking/python/data.py)

    A shallow embedding of [data.py]: the LibSVM text aggregator
    ([_libsvm_parse_line], [_libsvm_generate], [libsvm_generator]) and the
    SequenceExample normaliser ([_get_scalar_default_value],
    [parse_from_sequence_example]).

    Conventions.
    - Python exceptions are the [Raise] case of [result].
    - Python dicts keyed by strings are [gmap string _]; the loops over
      [six.iteritems] are folds over the map.
    - Floating point numbers are idealised as rationals [Q]: the code only
      copies them, compares them with 0 and multiplies by one.
    - [six.text_type] is Python 3's [str]. *)

From Stdlib Require Import ZArith QArith Ascii String List Lia Permutation.
From stdpp Require Import base option list gmap strings fin_maps pretty.

Set Default Proof Using "Type".
Close Scope Q_scope.
Local Open Scope string_scope.
Local Open Scope list_scope.

(** ** Exceptions *)

Inductive exn : Type :=
  | ValueError
  | TypeError
  | IndexError
  | KeyError
  | AttributeError
  | InvalidArgumentError.

Inductive result (A : Type) : Type :=
  | Ok (a : A)
  | Raise (e : exn).
Arguments Ok {A} a.
Arguments Raise {A} e.

#[global] Instance result_ret : MRet result := fun A a => Ok a.
#[global] Instance result_bind : MBind result := fun A B f m =>
  match m with
  | Ok a => f a
  | Raise e => Raise e
  end.

#[global] Instance result_fmap : FMap result := fun A B f m =>
  match m with
  | Ok a => Ok (f a)
  | Raise e => Raise e
  end.

Definition of_option {A} (e : exn) (o : option A) : result A :=
  match o with
  | Some a => Ok a
  | None => Raise e
  end.

Definition is_ok {A} (r : result A) : Prop := exists a, r = Ok a.

(** ** The LibSVM text format *)

(** [_LABEL_FEATURE = "label"], [_PADDING_LABEL = -1.] *)
Definition _LABEL_FEATURE : string := "label".
Definition _PADDING_LABEL : Q := (-1)%Q.

(** A document: feature id (string) to value. *)
Abbreviation doc := (gmap string Q).

(** [str.isspace] on the ASCII range. *)
Definition is_space (c : ascii) : bool :=
  let n := nat_of_ascii c in
  ((9 <=? n)%nat && (n <=? 13)%nat) || ((28 <=? n)%nat && (n <=? 32)%nat).

(** [s.split()]: maximal runs of non-blank characters. [cur] is the run being
    read, last character first. *)
Fixpoint split_ws_go (cs cur : list ascii) : list string :=
  match cs with
  | [] => match cur with [] => [] | _ => [string_of_list_ascii (rev cur)] end
  | c :: cs' =>
      if is_space c then
        match cur with
        | [] => split_ws_go cs' []
        | _ => string_of_list_ascii (rev cur) :: split_ws_go cs' []
        end
      else split_ws_go cs' (c :: cur)
  end.

Definition py_split (s : string) : list string :=
  split_ws_go (list_ascii_of_string s) [].

(** [s.split(sep)] for a one-character separator: never empty, keeps empty
    pieces. *)
Fixpoint split_on_go (sep : ascii) (cs cur : list ascii) : list string :=
  match cs with
  | [] => [string_of_list_ascii (rev cur)]
  | c :: cs' =>
      if Ascii.eqb c sep then
        string_of_list_ascii (rev cur) :: split_on_go sep cs' []
      else split_on_go sep cs' (c :: cur)
  end.

Definition py_split_on (sep : ascii) (s : string) : list string :=
  split_on_go sep (list_ascii_of_string s) [].

(** [str(n)] for a natural number. *)
Definition py_str (n : nat) : string := pretty n.

(** A numpy array of shape [[list_size, 1]] is a list of one-element rows; one
    of shape [[list_size]] a list. *)
Abbreviation matrix := (list (list Q)).

Definition np_zeros2 (rows cols : nat) : matrix := replicate rows (replicate cols 0%Q).
Definition np_full (n : nat) (v : Q) : list Q := replicate n v.

(** [a[i] = v]: numpy raises IndexError out of range. *)
Definition set_item (a : list Q) (i : nat) (v : Q) : result (list Q) :=
  if decide (i < length a)%nat then Ok (<[i := v]> a) else Raise IndexError.

(** [a[i, j] = v]. *)
Definition set_item2 (a : matrix) (i j : nat) (v : Q) : result matrix :=
  match a !! i with
  | Some row =>
      if decide (j < length row)%nat then Ok (<[i := <[j := v]> row]> a)
      else Raise IndexError
  | None => Raise IndexError
  end.

(** What [_libsvm_generate] returns: the feature dictionary and the labels. *)
Abbreviation aggregate := (gmap string matrix * list Q)%type.

(** What a run of the generator does, in order: each call of
    [_libsvm_generate] with its document list, and each value yielded. *)
Inductive event : Type :=
  | Finalize (docs : list doc)
  | Yield (a : aggregate).

(** How a run ends: the generator returns, or an exception leaves it. *)
Inductive gen_end : Type :=
  | StopIteration
  | Raised (e : exn).

(** What the module takes from outside: the builtins [int] and [float] on
    strings ([None]: ValueError), and the process-wide random source behind
    [np.random.shuffle], which returns the list in its new order. *)
Class Builtins : Type := {
  py_int : string -> option Z;
  py_float : string -> option Q;
  rng : Type;
  np_random_shuffle : rng -> list doc -> list doc * rng;
  np_random_shuffle_perm : forall g l, Permutation l (np_random_shuffle g l).1;
}.

Section LibSVM.
Context {builtins : Builtins}.

(** [_libsvm_parse_line]. *)
Definition parse_key_value (acc : result doc) (key_value : list string) : result doc :=
  d ← acc;
  match key_value with
  | [key; value] =>
      v ← of_option ValueError (py_float value);
      Ok (<[key := v]> d)
  | _ => Raise ValueError
  end.

Definition _libsvm_parse_line (libsvm_line : string) : result (Z * doc) :=
  let tokens := py_split libsvm_line in
  t1 ← of_option IndexError (tokens !! 1%nat);
  q ← of_option IndexError (py_split_on ":" t1 !! 1%nat);
  qid ← of_option ValueError (py_int q);
  t0 ← of_option IndexError (tokens !! 0%nat);
  label ← of_option ValueError (py_float t0);
  let key_values := map (py_split_on ":") (drop 2 tokens) in
  kv ← foldl parse_key_value (Ok ∅) key_values;
  Ok (qid, kv ∪ {[ _LABEL_FEATURE := label ]}).

(** [_libsvm_generate]: the body of the loop over one document's items. *)
Definition fill_item (idx : nat) (acc : result aggregate) (item : string * Q)
  : result aggregate :=
  '(features, labels) ← acc;
  let '(feature_id, value) := item in
  if decide (feature_id = _LABEL_FEATURE) then
    labels' ← set_item labels idx value;
    Ok (features, labels')
  else
    a ← of_option TypeError (features !! feature_id);
    a' ← set_item2 a idx 0 value;
    Ok (<[feature_id := a']> features, labels).

(** The loop over [six.iteritems(doc)], in the order the map gives its items. *)
Definition fill_doc (idx : nat) (d : doc) (acc : result aggregate) : result aggregate :=
  map_fold (fun feature_id value acc => fill_item idx acc (feature_id, value)) acc d.

Fixpoint fill_docs (idx : nat) (docs : list doc) (acc : result aggregate)
  : result aggregate :=
  match docs with
  | [] => acc
  | d :: docs' => fill_docs (S idx) docs' (fill_doc idx d acc)
  end.

Definition init_features (num_features list_size : nat) : gmap string matrix :=
  foldl (fun features fid => <[py_str (fid + 1) := np_zeros2 list_size 1]> features)
        ∅ (seq 0 num_features).

(** [_libsvm_generate]. [np.random.shuffle] reorders the caller's list in
    place; [inner_generator] binds a new list to [doc_list] right after each
    call, so only this call sees the new order. *)
Definition _libsvm_generate (g : rng) (num_features list_size : nat) (doc_list : list doc)
  : result aggregate * rng :=
  let features := init_features num_features list_size in
  let labels := np_full list_size _PADDING_LABEL in
  let '(doc_list, g') := np_random_shuffle g doc_list in
  let doc_list :=
    if decide (list_size < length doc_list)%nat then take list_size doc_list
    else doc_list in
  (fill_docs 0 doc_list (Ok (features, labels)), g').

(** [inner_generator]: the loop over the lines with its two variables [cur]
    and [doc_list], then the last [yield]. *)
Fixpoint generator_loop (num_features list_size : nat) (g : rng) (cur : Z)
    (doc_list : list doc) (lines : list string) : list event * gen_end * rng :=
  match lines with
  | [] =>
      match _libsvm_generate g num_features list_size doc_list with
      | (Ok a, g') => ([Finalize doc_list; Yield a], StopIteration, g')
      | (Raise e, g') => ([Finalize doc_list], Raised e, g')
      end
  | line :: lines' =>
      match _libsvm_parse_line line with
      | Raise e => ([], Raised e, g)
      | Ok (qid, d) =>
          let cur := if (cur <? 0)%Z then qid else cur in
          if (qid =? cur)%Z then
            generator_loop num_features list_size g cur (doc_list ++ [d]) lines'
          else
            match _libsvm_generate g num_features list_size doc_list with
            | (Ok a, g') =>
                let '(evs, e, g'') :=
                  generator_loop num_features list_size g' qid [d] lines' in
                (Finalize doc_list :: Yield a :: evs, e, g'')
            | (Raise e, g') => ([Finalize doc_list], Raised e, g')
            end
      end
  end.

Definition inner_generator (num_features list_size : nat) (g : rng) (lines : list string)
  : list event * gen_end * rng :=
  generator_loop num_features list_size g (-1)%Z [] lines.

Definition yields (evs : list event) : list aggregate :=
  omap (fun ev => match ev with Yield a => Some a | Finalize _ => None end) evs.

Definition finalized (evs : list event) : list (list doc) :=
  omap (fun ev => match ev with Finalize dl => Some dl | Yield _ => None end) evs.

(** ** The notions the theorems are stated with *)

(** Writing column 0 of row [idx]. *)
Definition put_cell (idx : nat) (v : Q) (a : matrix) : matrix :=
  alter (fun row => <[0%nat := v]> row) idx a.

(** A feature dictionary and a label vector of [list_size] slots, every row
    of a feature matrix one cell wide. *)
Definition agg_wf (list_size : nat) (features : gmap string matrix) (labels : list Q) : Prop :=
  length labels = list_size /\
  forall k a, features !! k = Some a ->
    length a = list_size /\ Forall (fun row => length row = 1%nat) a.

(** The keys a document may carry: the label, or a declared feature id. *)
Definition declared (features : gmap string matrix) (d : doc) : Prop :=
  map_Forall (fun k _ => k = _LABEL_FEATURE \/ is_Some (features !! k)) d.

#[global] Instance declared_dec features d : Decision (declared features d).
Proof. unfold declared. apply _. Defined.

Definition write_labels (idx : nat) (d : doc) (labels : list Q) : list Q :=
  match d !! _LABEL_FEATURE with
  | Some v => <[idx := v]> labels
  | None => labels
  end.

Definition write_features (idx : nat) (d : doc) (features : gmap string matrix)
  : gmap string matrix :=
  map_imap (fun k a =>
    Some (if decide (k = _LABEL_FEATURE) then a
          else match d !! k with
               | Some v => put_cell idx v a
               | None => a
               end)) features.

(** What the label vector and the column of feature [k] hold once the
    documents [ds] are written from slot 0 on. *)
Definition labels_of (list_size : nat) (ds : list doc) : list Q :=
  map (fun d : doc => default _PADDING_LABEL (d !! _LABEL_FEATURE)) ds
  ++ replicate (list_size - length ds) _PADDING_LABEL.

Definition column_of (list_size : nat) (k : string) (ds : list doc) : matrix :=
  map (fun d : doc => [default 0%Q (d !! k)]) ds
  ++ replicate (list_size - length ds) [0%Q].

Definition features_of (num_features list_size : nat) (ds : list doc)
  : gmap string matrix :=
  map_imap (fun k _ => Some (column_of list_size k ds))
           (init_features num_features list_size).

(** The state of the loop of [inner_generator] after some lines: the current
    query id and the documents accumulated for it. *)
Fixpoint accumulated (cur : Z) (doc_list : list doc) (parsed : list (Z * doc))
  : Z * list doc :=
  match parsed with
  | [] => (cur, doc_list)
  | (qid, d) :: parsed' =>
      let cur := if (cur <? 0)%Z then qid else cur in
      if (qid =? cur)%Z then accumulated cur (doc_list ++ [d]) parsed'
      else accumulated qid [d] parsed'
  end.

(** Lines that parse, each to a document of declared feature ids. *)
Definition well_formed_line (nf ls : nat) (line : string) (p : Z * doc) : Prop :=
  _libsvm_parse_line line = Ok p /\ declared (init_features nf ls) p.2.

End LibSVM.

(** ** A concrete instance to run the aggregator on *)

(** [int] and [float] on plain decimal literals (an optional sign, digits, for
    [float] an optional fraction), and a random source whose shuffle leaves
    the list in place: one of the orders [np.random.shuffle] may produce. *)
Definition digit_of (c : ascii) : option Z :=
  let n := nat_of_ascii c in
  if ((48 <=? n)%nat && (n <=? 57)%nat)%bool then Some (Z.of_nat (n - 48)) else None.

Fixpoint digits_go (cs : list ascii) (acc : Z) : option Z :=
  match cs with
  | [] => Some acc
  | c :: cs' => d ← digit_of c; digits_go cs' (10 * acc + d)%Z
  end.

Definition decimal_nat (s : string) : option Z :=
  match list_ascii_of_string s with
  | [] => None
  | cs => digits_go cs 0%Z
  end.

Definition decimal_int (s : string) : option Z :=
  match s with
  | String "-" s' => Z.opp <$> decimal_nat s'
  | _ => decimal_nat s
  end.

Definition decimal_float (s : string) : option Q :=
  match py_split_on "." s with
  | [a] => inject_Z <$> decimal_int a
  | [a; b] =>
      i ← decimal_nat a;
      f ← decimal_nat b;
      let scale := (10 ^ Z.of_nat (String.length b))%Z in
      Some (Qmake (i * scale + f) (Z.to_pos scale))
  | _ => None
  end.

Definition plain_builtins : Builtins := {|
  py_int := decimal_int;
  py_float := decimal_float;
  rng := unit;
  np_random_shuffle := fun g l => (l, g);
  np_random_shuffle_perm := fun g l => Permutation_refl l;
|}.

(** * SequenceExample parsing *)

(** ** Python values and feature specs *)

(** The values a [default_value] may be. *)
#[warnings="-register-all"]
Inductive pyval : Type :=
  | PNone
  | PInt (z : Z)
  | PFloat (q : Q)
  | PStr (s : string)
  | PBytes (s : string)
  | PList (l : list pyval)
  | PTuple (l : list pyval).

Inductive dtype : Type :=
  | DT_FLOAT
  | DT_INT64
  | DT_STRING.

#[global] Instance dtype_eq_dec : EqDecision dtype.
Proof. solve_decision. Defined.

(** [tf.io.FixedLenFeature(shape, dtype, default_value)],
    [tf.io.VarLenFeature(dtype)] and
    [tf.io.FixedLenSequenceFeature(shape, dtype, allow_missing, default_value)]. *)
Inductive FeatureSpec : Type :=
  | FixedLenFeature (shape : list nat) (dt : dtype) (default_value : pyval)
  | VarLenFeature (dt : dtype)
  | FixedLenSequenceFeature (shape : list nat) (dt : dtype) (allow_missing : bool)
      (default_value : pyval).

(** Python truth of a value, [isinstance(v, six.text_type)] and [v != 0]. *)
Definition truthy (v : pyval) : bool :=
  match v with
  | PNone => false
  | PInt z => negb (z =? 0)%Z
  | PFloat q => negb (Qnum q =? 0)%Z
  | PStr s | PBytes s => negb (String.eqb s "")
  | PList l | PTuple l => match l with [] => false | _ => true end
  end.

Definition is_text (v : pyval) : bool :=
  match v with
  | PStr _ => true
  | _ => false
  end.

Definition ne_zero (v : pyval) : bool :=
  match v with
  | PInt z => negb (z =? 0)%Z
  | PFloat q => negb (Qnum q =? 0)%Z
  | _ => true
  end.

(** [_get_scalar_default_value]. *)
Definition _get_scalar_default_value (dt : dtype) (default_value : pyval) : result pyval :=
  if decide (dt = DT_STRING) then
    Ok (if truthy default_value then default_value else PStr "")
  else
    match default_value with
    | PNone => Ok (PInt 0)
    | PInt _ | PFloat _ => Ok default_value
    | PList [x] | PTuple [x] => Ok x
    | _ => Raise ValueError
    end.

(** ** Tensors *)

(** A dense array: its shape and its elements in row-major order. *)
Record ndarray (A : Type) : Type := NdArray {
  shape : list nat;
  data : list A;
}.
Arguments NdArray {A} shape data.
Arguments shape {A} _.
Arguments data {A} _.

(** An element of a feature tensor: a number or a string. *)
Inductive elem : Type :=
  | ENum (q : Q)
  | EStr (s : string).

(** A [tf.Tensor]: element type, static shape (None: unknown until the batch
    is processed) and value. *)
Record Tensor : Type := MkTensor {
  t_dtype : dtype;
  static_shape : list (option nat);
  value : ndarray elem;
}.

(** A [tf.sparse.SparseTensor]: one index vector per value, and the bounds. *)
Record SparseTensor : Type := MkSparse {
  sp_dtype : dtype;
  indices : list (list nat);
  values : list elem;
  dense_shape : list nat;
}.

Inductive Feature : Type :=
  | Dense (t : Tensor)
  | Sparse (t : SparseTensor).

Definition prod_list (l : list nat) : nat := foldr Nat.mul 1%nat l.

(** The [i]-th block of [stride] elements. *)
Definition chunk {A} (stride i : nat) (l : list A) : list A :=
  take stride (drop (i * stride) l).

Definition wf_ndarray {A} (a : ndarray A) : Prop :=
  length (data a) = prod_list (shape a).

(** [tf.shape(t)]. *)
Definition tf_shape (t : Feature) : list nat :=
  match t with
  | Dense t => shape (value t)
  | Sparse t => dense_shape t
  end.

(** [tf.range(n)]. *)
Definition tf_range (n : nat) : ndarray Z := NdArray [n] (map Z.of_nat (seq 0 n)).

(** [tf.tile(t, [m])] for a vector. *)
Definition tf_tile {A} (t : ndarray A) (m : nat) : result (ndarray A) :=
  match shape t with
  | [n] => Ok (NdArray [n * m]%nat (mjoin (replicate m (data t))))
  | _ => Raise InvalidArgumentError
  end.

(** [tf.reshape(t, shape)] for a shape without -1: the number of elements
    must stay the same. *)
Definition tf_reshape {A} (t : ndarray A) (new_shape : list nat) : result (ndarray A) :=
  if decide (prod_list new_shape = length (data t)) then Ok (NdArray new_shape (data t))
  else Raise InvalidArgumentError.

(** [tf.reshape(t, [-1, 1, 1])]. *)
Definition tf_reshape_column {A} (t : ndarray A) : ndarray A :=
  NdArray [length (data t); 1; 1]%nat (data t).

(** Broadcasting [data] of shape [src] to the shape [tgt] of the same rank:
    a dimension of size 1 is repeated. *)
Fixpoint broadcast_data {A} (src tgt : list nat) (l : list A) : list A :=
  match src, tgt with
  | s :: src', t :: tgt' =>
      let stride := prod_list src' in
      if decide (s = t) then
        mjoin (map (fun i => broadcast_data src' tgt' (chunk stride i l)) (seq 0 s))
      else
        mjoin (replicate t (broadcast_data src' tgt' (chunk stride 0 l)))
  | _, _ => l
  end.

Fixpoint broadcast_shape (s1 s2 : list nat) : option (list nat) :=
  match s1, s2 with
  | [], [] => Some []
  | a :: s1', b :: s2' =>
      r ← broadcast_shape s1' s2';
      if decide (a = b) then Some (a :: r)
      else if decide (a = 1%nat) then Some (b :: r)
      else if decide (b = 1%nat) then Some (a :: r)
      else None
  | _, _ => None
  end.

(** [tf.less(x, y)] on integer tensors of the same rank. *)
Definition tf_less (x y : ndarray Z) : result (ndarray bool) :=
  s ← of_option InvalidArgumentError (broadcast_shape (shape x) (shape y));
  Ok (NdArray s (zip_with Z.ltb (broadcast_data (shape x) s (data x))
                                (broadcast_data (shape y) s (data y)))).

(** [tf.where(cond, x, y)]: the three of one shape. *)
Definition tf_where {A} (cond : ndarray bool) (x y : ndarray A) : result (ndarray A) :=
  if decide (shape cond = shape x /\ shape y = shape x) then
    Ok (NdArray (shape x)
          (zip_with (fun (c : bool) (xy : A * A) => if c then xy.1 else xy.2)
                    (data cond) (zip (data x) (data y))))
  else Raise InvalidArgumentError.

(** [v * tf.ones_like(t)]: defined for a number [v] and a numeric tensor, an
    integer tensor taking an integer only. *)
Definition scalar_times_ones (v : pyval) (t : Tensor) : result (ndarray elem) :=
  let fill (q : Q) :=
    Ok (NdArray (shape (value t))
          (map (fun _ => ENum (q * 1)%Q) (data (value t)))) in
  match v, t_dtype t with
  | PInt z, (DT_FLOAT | DT_INT64) => fill (inject_Z z)
  | PFloat q, DT_FLOAT => fill q
  | _, _ => Raise TypeError
  end.

(** [tf.slice(t, begin, size)]. *)
Fixpoint slice_data {A} (shp begin size : list nat) (l : list A) : list A :=
  match shp, begin, size with
  | d :: shp', b :: begin', s :: size' =>
      let stride := prod_list shp' in
      mjoin (map (fun i => slice_data shp' begin' size' (chunk stride i l)) (seq b s))
  | _, _, _ => l
  end.

Definition slice_ok (shp begin size : list nat) : Prop :=
  length begin = length shp /\ length size = length shp /\
  Forall2 (fun d bs => (bs.1 + bs.2 <= d)%nat) shp (zip begin size).

#[global] Instance slice_ok_dec shp begin size : Decision (slice_ok shp begin size).
Proof. unfold slice_ok. apply _. Defined.

Definition tf_slice {A} (t : ndarray A) (begin size : list nat) : result (ndarray A) :=
  if decide (slice_ok (shape t) begin size) then
    Ok (NdArray size (slice_data (shape t) begin size (data t)))
  else Raise InvalidArgumentError.

(** [tf.pad(t, paddings, constant_values=c)]. *)
Definition padded_shape (shp : list nat) (paddings : list (nat * nat)) : list nat :=
  zip_with (fun d (p : nat * nat) => (p.1 + d + p.2)%nat) shp paddings.

Fixpoint pad_data {A} (shp : list nat) (paddings : list (nat * nat)) (c : A) (l : list A)
  : list A :=
  match shp, paddings with
  | d :: shp', (before, after) :: paddings' =>
      let stride := prod_list shp' in
      let stride' := prod_list (padded_shape shp' paddings') in
      replicate (before * stride') c
      ++ mjoin (map (fun i => pad_data shp' paddings' c (chunk stride i l)) (seq 0 d))
      ++ replicate (after * stride') c
  | _, _ => l
  end.

Definition tf_pad {A} (t : ndarray A) (paddings : list (nat * nat)) (c : A)
  : result (ndarray A) :=
  if decide (length paddings = length (shape t)) then
    Ok (NdArray (padded_shape (shape t) paddings) (pad_data (shape t) paddings c (data t)))
  else Raise InvalidArgumentError.

(** The constant [tf.pad] builds from [constant_values] for a tensor of type
    [dt]. *)
Definition constant_of (dt : dtype) (v : pyval) : result elem :=
  match v, dt with
  | PInt z, (DT_FLOAT | DT_INT64) => Ok (ENum (inject_Z z))
  | PFloat q, DT_FLOAT => Ok (ENum q)
  | (PStr s | PBytes s), DT_STRING => Ok (EStr s)
  | _, _ => Raise TypeError
  end.

(** [tf.sparse.slice(t, start, size)]. *)
Definition in_window (start size idx : list nat) : bool :=
  bool_decide (Forall2 (fun i (bs : nat * nat) => (bs.1 <= i < bs.1 + bs.2)%nat)
                       idx (zip start size)).

Definition tf_sparse_slice (t : SparseTensor) (start size : list nat) : result SparseTensor :=
  if decide (length start = length (dense_shape t) /\ length size = length (dense_shape t))
  then
    let kept := filter (fun e : list nat * elem => in_window start size e.1)
                       (zip (indices t) (values t)) in
    Ok (MkSparse (sp_dtype t)
          (map (fun e : list nat * elem => zip_with Nat.sub e.1 start) kept)
          (map snd kept)
          (zip_with (fun d (bs : nat * nat) => Nat.min bs.2 (d - bs.1))
                    (dense_shape t) (zip start size)))
  else Raise InvalidArgumentError.

(** [tf.sparse.reset_shape(t, new_shape)]: same rank, no bound lowered. *)
Definition tf_sparse_reset_shape (t : SparseTensor) (new_shape : list nat)
  : result SparseTensor :=
  if decide (length new_shape = length (dense_shape t)) then
    if decide (Forall2 le (dense_shape t) new_shape) then
      Ok (MkSparse (sp_dtype t) (indices t) (values t) new_shape)
    else Raise InvalidArgumentError
  else Raise ValueError.

(** [tf.reduce_max(tf.stack(dims))]. On no dimension at all the value is
    never used. *)
Definition tf_reduce_max (dims : list nat) : nat := foldr Nat.max 0%nat dims.

(** ** [parse_from_sequence_example] *)

(** What the decoder returns: the context features, the per-position
    features and the true length of every row of every per-position
    feature. *)
Abbreviation parsed_batch :=
  (gmap string Feature * gmap string Feature * gmap string (ndarray Z))%type.

(** What the function takes from TensorFlow: the decoder
    [tf.io.parse_sequence_example], from the serialized batch, the context
    specs and the sequence specs to the parsed batch; and whether the
    function is traced into a graph (a session, [Dataset.map]) or run
    eagerly. *)
Class Decoder : Type := {
  serialized : Type;
  parse_sequence_example :
    serialized -> gmap string FeatureSpec -> gmap string FeatureSpec ->
    result parsed_batch;
  graph_mode : bool;
}.

(** A call of the decoder, as recorded in the trace of a run. *)
Inductive decode_call `{Decoder} : Type :=
  | ParseSequenceExample (s : serialized)
      (context_features sequence_features : gmap string FeatureSpec).

(** [scalar and not isinstance(scalar, six.text_type) and scalar != 0]. *)
Definition non_trivial (scalar : pyval) : bool :=
  truthy scalar && negb (is_text scalar) && ne_zero scalar.

(** The body of the first loop, over [six.iteritems(example_feature_spec)]. *)
Definition collect_spec (k : string) (s : FeatureSpec)
    (acc : result (gmap string FeatureSpec * gmap string pyval))
  : result (gmap string FeatureSpec * gmap string pyval) :=
  '(fixed_len_sequence_features, padding_values) ← acc;
  match s with
  | FixedLenFeature shp dt default_value =>
      scalar ← _get_scalar_default_value dt default_value;
      Ok (<[k := FixedLenSequenceFeature shp dt true PNone]> fixed_len_sequence_features,
          if non_trivial scalar then <[k := scalar]> padding_values else padding_values)
  | _ => Ok (fixed_len_sequence_features, padding_values)
  end.

Definition collect_specs (example_feature_spec : gmap string FeatureSpec)
  : result (gmap string FeatureSpec * gmap string pyval) :=
  map_fold collect_spec (Ok (∅, ∅)) example_feature_spec.

(** The body of the second loop: reset the padding of feature [k] to [v]. *)
Definition reset_padding (sizes : gmap string (ndarray Z)) (k : string) (v : pyval)
    (acc : result (gmap string Feature)) : result (gmap string Feature) :=
  examples ← acc;
  t ← of_option KeyError (examples !! k);
  match t with
  | Sparse _ => Raise TypeError
  | Dense tensor =>
      if decide (length (static_shape tensor) = 3%nat) then
        sz ← of_option KeyError (sizes !! k);
        let size := tf_reshape_column sz in
        d0 ← of_option IndexError (shape (value tensor) !! 0%nat);
        d1 ← of_option IndexError (shape (value tensor) !! 1%nat);
        tiled ← tf_tile (tf_range d1) d0;
        rank ← tf_reshape tiled (shape (value tensor));
        cond ← tf_less rank size;
        ones ← scalar_times_ones v tensor;
        new ← tf_where cond (value tensor) ones;
        Ok (<[k := Dense (MkTensor (t_dtype tensor) (static_shape tensor) new)]> examples)
      else Raise ValueError
  end.

Definition reset_paddings (padding_values : gmap string pyval)
    (examples : gmap string Feature) (sizes : gmap string (ndarray Z))
  : result (gmap string Feature) :=
  map_fold (reset_padding sizes) (Ok examples) padding_values.

(** [tf.shape(t)[1]]. *)
Definition num_frames_of (t : Feature) : result nat :=
  of_option IndexError (tf_shape t !! 1%nat).

(** [list_size_dynamic]. *)
Definition list_size_dynamic (examples : gmap string Feature) : result nat :=
  dims ← mapM (fun kt : string * Feature => num_frames_of kt.2) (map_to_list examples);
  Ok (tf_reduce_max dims).

Definition spec_dtype_default (s : FeatureSpec) : result (dtype * pyval) :=
  match s with
  | FixedLenFeature _ dt default_value => Ok (dt, default_value)
  | FixedLenSequenceFeature _ dt _ default_value => Ok (dt, default_value)
  | VarLenFeature _ => Raise AttributeError
  end.

(** [static_shape[1] = list_size_arg]. *)
Definition set_second (static : list (option nat)) (list_size_arg : option nat)
  : result (list (option nat)) :=
  if decide (1 < length static)%nat then Ok (<[1%nat := list_size_arg]> static)
  else Raise IndexError.

(** The two branches of the third loop. *)
Definition truncate_fn (t : Feature) (ndims : nat) (new_shape : list nat) : result Feature :=
  match t with
  | Sparse t => Sparse <$> tf_sparse_slice t (replicate ndims 0%nat) new_shape
  | Dense t =>
      v ← tf_slice (value t) (replicate ndims 0%nat) new_shape;
      Ok (Dense (MkTensor (t_dtype t) (static_shape t) v))
  end.

Definition pad_value (example_feature_spec : gmap string FeatureSpec) (k : string)
    (dt : dtype) : result elem :=
  s ← of_option KeyError (example_feature_spec !! k);
  '(sdt, default_value) ← spec_dtype_default s;
  pad_val ← _get_scalar_default_value sdt default_value;
  constant_of dt pad_val.

Definition pad_fn (example_feature_spec : gmap string FeatureSpec) (k : string)
    (t : Feature) (ndims num_frames list_size : nat) (new_shape : list nat)
  : result Feature :=
  match t with
  | Sparse t => Sparse <$> tf_sparse_reset_shape t new_shape
  | Dense t =>
      let paddings :=
        [(0, 0); (0, list_size - num_frames)]%nat ++ replicate (ndims - 2) (0, 0)%nat in
      c ← pad_value example_feature_spec k (t_dtype t);
      v ← tf_pad (value t) paddings c;
      Ok (Dense (MkTensor (t_dtype t) (static_shape t) v))
  end.

Definition rank_of (t : Feature) : nat :=
  match t with
  | Dense t => length (static_shape t)
  | Sparse t => length (dense_shape t)
  end.

(** The body of the third loop: feature [k] truncated or padded to
    [list_size]. When the function is traced into a graph ([graph_mode]),
    [tf.cond] builds both branches before one of them runs, so what [pad_fn]
    computes in Python, the pad value of a dense feature, is computed (and
    may raise) whichever branch runs; run eagerly, [tf.cond] calls the one
    branch that [num_frames > list_size] selects. *)
Definition normalize (graph_mode : bool) (example_feature_spec : gmap string FeatureSpec)
    (list_size : nat) (list_size_arg : option nat) (k : string) (t : Feature)
  : result Feature :=
  let shp := tf_shape t in
  let ndims := rank_of t in
  num_frames ← num_frames_of t;
  d0 ← of_option IndexError (shp !! 0%nat);
  let new_shape := [d0; list_size] ++ drop 2 shp in
  _ ← match t with
      | Dense t =>
          if graph_mode then pad_value example_feature_spec k (t_dtype t)
          else Ok (ENum 0)
      | Sparse _ => Ok (ENum 0)
      end;
  tensor ← (if decide (list_size < num_frames)%nat then truncate_fn t ndims new_shape
            else pad_fn example_feature_spec k t ndims num_frames list_size new_shape);
  match tensor with
  | Sparse _ => Ok tensor
  | Dense r =>
      static ← set_second (static_shape r) list_size_arg;
      Ok (Dense (MkTensor (t_dtype r) static (value r)))
  end.

Definition normalize_all (graph_mode : bool)
    (example_feature_spec : gmap string FeatureSpec)
    (list_size : nat) (list_size_arg : option nat)
    (context examples : gmap string Feature) : result (gmap string Feature) :=
  map_fold (fun k t acc =>
              features ← acc;
              tensor ← normalize graph_mode example_feature_spec list_size
                                 list_size_arg k t;
              Ok (<[k := tensor]> features))
           (Ok context) examples.

(** [if list_size is not None and list_size <= 0: list_size = None]. *)
Definition effective_list_size (list_size : option Z) : option nat :=
  match list_size with
  | Some n => if (n <=? 0)%Z then None else Some (Z.to_nat n)
  | None => None
  end.

Section Parse.
Context {decoder : Decoder}.

(** What follows the decoder: the padding reset, the target length and the
    normalisation. *)
Definition post_process (list_size_arg : option nat)
    (example_feature_spec : gmap string FeatureSpec) (padding_values : gmap string pyval)
    (decoded : parsed_batch) : result (gmap string Feature) :=
  let '(context, examples, sizes) := decoded in
  examples ← reset_paddings padding_values examples sizes;
  list_size ← match list_size_arg with
              | Some n => Ok n
              | None => list_size_dynamic examples
              end;
  normalize_all graph_mode example_feature_spec list_size list_size_arg context examples.

(** The function, with the calls of the decoder it made. *)
Definition parse_from_sequence_example (s : serialized) (list_size : option Z)
    (context_feature_spec example_feature_spec : gmap string FeatureSpec)
  : list decode_call * result (gmap string Feature) :=
  let list_size_arg := effective_list_size list_size in
  match collect_specs example_feature_spec with
  | Raise e => ([], Raise e)
  | Ok (fixed_len_sequence_features, padding_values) =>
      let sequence_features := fixed_len_sequence_features ∪ example_feature_spec in
      ([ParseSequenceExample s context_feature_spec sequence_features],
       decoded ← parse_sequence_example s context_feature_spec sequence_features;
       post_process list_size_arg example_feature_spec padding_values decoded)
  end.

End Parse.

(** ** The notions the theorems are stated with *)

(** A spec whose default resolves to a scalar. *)
Definition resolvable (s : FeatureSpec) : Prop :=
  match s with
  | FixedLenFeature _ dt default_value =>
      is_ok (_get_scalar_default_value dt default_value)
  | _ => True
  end.

#[global] Instance is_ok_dec {A} (r : result A) : Decision (is_ok r).
Proof.
  destruct r as [a|e]; [left; by exists a|right; by intros [a ?]].
Defined.

#[global] Instance resolvable_dec s : Decision (resolvable s).
Proof. destruct s; simpl; apply _. Defined.

(** The two dictionaries the first loop builds. *)
Definition sequence_spec_of (s : FeatureSpec) : option FeatureSpec :=
  match s with
  | FixedLenFeature shp dt _ => Some (FixedLenSequenceFeature shp dt true PNone)
  | _ => None
  end.

Definition padding_value_of (s : FeatureSpec) : option pyval :=
  match s with
  | FixedLenFeature _ dt default_value =>
      match _get_scalar_default_value dt default_value with
      | Ok scalar => if non_trivial scalar then Some scalar else None
      | Raise _ => None
      end
  | _ => None
  end.

Definition is_dense (t : Feature) : Prop :=
  match t with
  | Dense _ => True
  | Sparse _ => False
  end.

(** The static second dimension of a dense feature. *)
Definition static_second (t : Feature) : option (option nat) :=
  match t with
  | Dense t => static_shape t !! 1%nat
  | Sparse _ => None
  end.

(** [L] is the largest second dimension among the features of [examples]. *)
Definition batch_max (examples : gmap string Feature) (L : nat) : Prop :=
  (forall k t n, examples !! k = Some t -> tf_shape t !! 1%nat = Some n -> (n <= L)%nat) /\
  (exists k t, examples !! k = Some t /\ tf_shape t !! 1%nat = Some L).

(** The frame (all the values) at row [b] and position [f] of an array of
    shape [[batch, positions, ...]]. *)
Definition frame {A} (a : ndarray A) (b f : nat) : list A :=
  match shape a with
  | _ :: F :: inner => chunk (prod_list inner) (b * F + f) (data a)
  | _ => []
  end.

(** The position-axis index of an entry of a sparse feature. *)
Definition position_of (idx : list nat) : nat := default 0%nat (idx !! 1%nat).

(** Every index vector lies within the bounds. *)
Definition wf_sparse (t : SparseTensor) : Prop :=
  length (indices t) = length (values t) /\
  Forall (fun idx => Forall2 lt idx (dense_shape t)) (indices t).

(** ** A concrete decoder to run the parser on *)

(** A decoder whose serialized batch is the parsed batch itself. *)
Definition given_batch : Decoder := {|
  serialized := parsed_batch;
  parse_sequence_example := fun s _ _ => Ok s;
  graph_mode := true;
|}.

Definition num (z : Z) : elem := ENum (inject_Z z).

(** Two queries; the second has one document only, so the decoder filled its
    second position with 0. *)
Definition utility_batch : Tensor :=
  MkTensor DT_FLOAT [None; None; Some 1%nat]
           (NdArray [2; 2; 1]%nat [num 3; num 1; num 2; num 0]).

Definition utility_spec : FeatureSpec :=
  FixedLenFeature [1%nat] DT_FLOAT (PList [PFloat (inject_Z (-1))]).

Definition query_length : Feature :=
  Dense (MkTensor DT_INT64 [None; Some 1%nat] (NdArray [2; 1]%nat [num 3; num 2])).

Definition example_batch : parsed_batch :=
  ({[ "query_length" := query_length ]},
   {[ "utility" := Dense utility_batch ]},
   {[ "utility" := NdArray [2%nat] [2%Z; 1%Z] ]}).

(** A batch of one query with one document whose feature has two values; the
    true length is 1, so there is no padding to reset. *)
Definition wide_batch : parsed_batch :=
  (∅,
   {[ "embedding" :=
        Dense (MkTensor DT_FLOAT [None; None; Some 2%nat]
                        (NdArray [1; 1; 2]%nat [num 5; num 6])) ]},
   {[ "embedding" := NdArray [1%nat] [1%Z] ]}).

Definition wide_spec : gmap string FeatureSpec :=
  {[ "embedding" := FixedLenFeature [2%nat] DT_FLOAT (PFloat (inject_Z (-1))) ]}.

Definition utility_specs : gmap string FeatureSpec := {[ "utility" := utility_spec ]}.

(** A batch whose context and per-position features share the key
    [utility]. *)
Definition shared_key_batch : parsed_batch :=
  ({[ "utility" := query_length ]},
   {[ "utility" := Dense utility_batch ]},
   {[ "utility" := NdArray [2%nat] [2%Z; 1%Z] ]}).

(** A string feature whose declared default is the text [abc]. *)
Definition title_batch : parsed_batch :=
  (∅,
   {[ "title" := Dense (MkTensor DT_STRING [None; None; Some 1%nat]
                                 (NdArray [1; 1; 1]%nat [EStr "x"])) ]},
   {[ "title" := NdArray [1%nat] [1%Z] ]}).

Definition title_specs : gmap string FeatureSpec :=
  {[ "title" := FixedLenFeature [1%nat] DT_STRING (PStr "abc") ]}.

(** The sparse feature of the docstring of
    [read_batched_sequence_example_dataset]. *)
Definition unigrams : SparseTensor :=
  MkSparse DT_STRING
    [[0; 0; 0]; [0; 1; 0]; [0; 1; 1]; [0; 1; 2]; [1; 0; 0]]%nat
    [EStr "tensorflow"; EStr "learning"; EStr "to"; EStr "rank"; EStr "gbdt"]
    [2; 2; 3]%nat.

(** ** The notions the further properties are stated with *)

(** The parsed lines of a file cut into its maximal runs of one query id:
    every run is non-empty and of one query id, and two runs that follow
    each other have different query ids. *)
Inductive query_runs : list (list (Z * doc)) -> Prop :=
  | query_runs_last (q : Z) (run : list (Z * doc)) :
      run <> [] -> Forall (fun p => p.1 = q) run -> query_runs [run]
  | query_runs_next (q q' : Z) (run run' : list (Z * doc)) runs :
      run <> [] -> Forall (fun p => p.1 = q) run ->
      Forall (fun p => p.1 = q') run' -> q <> q' ->
      query_runs (run' :: runs) ->
      query_runs (run :: run' :: runs).

(** What the padding reset needs of a registered field [k] with default [v]:
    the decoder returned it dense with a static rank of 3; its shape is
    [[B, F, W]] with one value per position (or no position at all); the
    decoder gave its true lengths, one per row (or a single one); and [v] is
    a number of the type of the tensor. *)
Definition resettable (examples : gmap string Feature) (sizes : gmap string (ndarray Z))
    (k : string) (v : pyval) (tensor : Tensor) : Prop :=
  exists (sz : ndarray Z) (q : Q) (B F W : nat),
    examples !! k = Some (Dense tensor) /\
    length (static_shape tensor) = 3%nat /\
    shape (value tensor) = [B; F; W]%nat /\
    (W = 1%nat \/ (B * F)%nat = 0%nat) /\
    sizes !! k = Some sz /\
    (length (data sz) = B \/ length (data sz) = 1%nat) /\
    constant_of (t_dtype tensor) v = Ok (ENum q).

(** The element type of a feature, and the static shape of a dense one. *)
Definition feature_dtype (t : Feature) : dtype :=
  match t with
  | Dense t => t_dtype t
  | Sparse t => sp_dtype t
  end.

Definition feature_static (t : Feature) : option (list (option nat)) :=
  match t with
  | Dense t => Some (static_shape t)
  | Sparse _ => None
  end.

(** What the parser needs of a per-position field [k] the decoder returned.
    A sparse field has a rank of at least 2 and is not registered for the
    padding reset. A dense field has a static rank that is the rank of its
    value, at least 2; its spec is of Fixed kind with a default that
    resolves to a scalar of the type of the tensor; and when this scalar is
    registered for the padding reset, the field can be reset. *)
Definition fits (ex : gmap string FeatureSpec) (examples : gmap string Feature)
    (sizes : gmap string (ndarray Z)) (k : string) (t : Feature) : Prop :=
  match t with
  | Sparse st =>
      (2 <= length (dense_shape st))%nat /\ ex !! k ≫= padding_value_of = None
  | Dense d =>
      length (static_shape d) = length (shape (value d)) /\
      (2 <= length (shape (value d)))%nat /\
      exists shp dt dv pad_val c,
        ex !! k = Some (FixedLenFeature shp dt dv) /\
        _get_scalar_default_value dt dv = Ok pad_val /\
        constant_of (t_dtype d) pad_val = Ok c /\
        (non_trivial pad_val = true -> resettable examples sizes k pad_val d)
  end.

(** * Theorems *)

Section LibSVMTheory.
Context {builtins : Builtins}.

(** ** The text aggregator: what [_libsvm_generate] writes *)

Lemma set_item_ok (a : list Q) i v :
  (i < length a)%nat -> set_item a i v = Ok (<[i := v]> a).
Proof. intros Hi. unfold set_item. by rewrite decide_True. Qed.

Lemma set_item2_ok (a : matrix) idx v row :
  a !! idx = Some row -> (0 < length row)%nat ->
  set_item2 a idx 0 v = Ok (put_cell idx v a).
Proof.
  intros Hrow Hlen. unfold set_item2, put_cell. rewrite Hrow.
  rewrite decide_True by done. f_equal.
  apply list_eq. intros j. destruct (decide (idx = j)) as [<-|Hne].
  - rewrite list_lookup_insert_eq by (by eapply lookup_lt_Some).
    by rewrite list_lookup_alter_eq, Hrow.
  - by rewrite list_lookup_insert_ne, list_lookup_alter_ne.
Qed.

Lemma lookup_write_features idx d features k :
  write_features idx d features !! k =
  (fun a => if decide (k = _LABEL_FEATURE) then a
            else match d !! k with
                 | Some v => put_cell idx v a
                 | None => a
                 end) <$> features !! k.
Proof.
  unfold write_features. rewrite map_lookup_imap.
  by destruct (features !! k).
Qed.

Lemma put_cell_length idx v (a : matrix) : length (put_cell idx v a) = length a.
Proof. unfold put_cell. by rewrite length_alter. Qed.

Lemma put_cell_rows idx v (a : matrix) :
  Forall (fun row => length row = 1%nat) a ->
  Forall (fun row => length row = 1%nat) (put_cell idx v a).
Proof.
  intros Ha. unfold put_cell. apply Forall_alter; [done|].
  intros row _ Hrow. by rewrite length_insert.
Qed.

Lemma agg_wf_write ls idx d features labels :
  agg_wf ls features labels ->
  agg_wf ls (write_features idx d features) (write_labels idx d labels).
Proof.
  intros [Hl Hf]. split.
  - unfold write_labels. destruct (d !! _LABEL_FEATURE); [|done].
    by rewrite length_insert.
  - intros k a. rewrite lookup_write_features.
    destruct (features !! k) as [a0|] eqn:Hk; [|done].
    destruct (Hf _ _ Hk) as [Hlen Hrows]. simpl. intros [= <-].
    case_decide; [done|]. destruct (d !! k); [|done].
    rewrite put_cell_length. auto using put_cell_rows.
Qed.

Lemma write_features_empty idx features : write_features idx ∅ features = features.
Proof.
  apply map_eq. intros k. rewrite lookup_write_features.
  destruct (features !! k); [simpl|done].
  rewrite lookup_empty. by case_decide.
Qed.

Lemma write_features_label idx (d : doc) v features :
  write_features idx (<[_LABEL_FEATURE := v]> d) features = write_features idx d features.
Proof.
  apply map_eq. intros k. rewrite !lookup_write_features.
  destruct (features !! k); [simpl|done].
  case_decide; [done|]. by rewrite lookup_insert_ne.
Qed.

Lemma write_features_insert idx (d : doc) i v features a :
  i <> _LABEL_FEATURE -> d !! i = None -> features !! i = Some a ->
  write_features idx (<[i := v]> d) features =
  <[i := put_cell idx v a]> (write_features idx d features).
Proof.
  intros Hi Hd Hf. apply map_eq. intros k.
  destruct (decide (i = k)) as [<-|Hne].
  - rewrite lookup_insert_eq, lookup_write_features, Hf. simpl.
    rewrite decide_False by done. by rewrite lookup_insert_eq.
  - rewrite lookup_insert_ne by done. rewrite !lookup_write_features.
    destruct (features !! k); [simpl|done].
    case_decide; [done|]. by rewrite lookup_insert_ne.
Qed.

(** One document: every item is written when all its keys are declared, and
    the first undeclared key raises TypeError ([features.get] gives None). *)
Lemma fill_doc_spec ls idx (d : doc) features labels :
  agg_wf ls features labels -> (idx < ls)%nat ->
  fill_doc idx d (Ok (features, labels)) =
  if decide (declared features d)
  then Ok (write_features idx d features, write_labels idx d labels)
  else Raise TypeError.
Proof.
  intros Hwf Hidx. unfold fill_doc.
  induction d as [|i x m Hm Hfirst IH] using map_first_key_ind.
  - rewrite map_fold_empty, decide_True by apply map_Forall_empty.
    by rewrite write_features_empty.
  - rewrite map_fold_insert_first_key by done. rewrite IH. clear IH Hfirst.
    assert (declared features (<[i:=x]> m) <->
            (i = _LABEL_FEATURE \/ is_Some (features !! i)) /\ declared features m)
      as Hdecl by (unfold declared; by rewrite map_Forall_insert).
    destruct (decide (declared features m)) as [Hd|Hd]; cycle 1.
    { rewrite decide_False by (rewrite Hdecl; tauto). done. }
    pose proof (agg_wf_write ls idx m _ _ Hwf) as [Hl Hf].
    unfold fill_item. simpl. destruct (decide (i = _LABEL_FEATURE)) as [->|Hi].
    + destruct (decide (declared _ (<[_ := x]> m))) as [_|[]]; [|rewrite Hdecl; tauto].
      rewrite set_item_ok by lia. simpl.
      rewrite write_features_label. unfold write_labels.
      by rewrite Hm, lookup_insert_eq.
    + rewrite lookup_write_features.
      destruct (features !! i) as [a|] eqn:Hfi; simpl.
      * destruct (decide (declared _ (<[i := x]> m))) as [_|[]];
          [|rewrite Hdecl; eauto].
        rewrite decide_False by done. rewrite Hm.
        destruct Hwf as [_ Hrows]. destruct (Hrows _ _ Hfi) as [Hlen Hrow].
        destruct (lookup_lt_is_Some_2 a idx) as [row Hr]; [lia|].
        rewrite (set_item2_ok a idx x row); [simpl|done|].
        2:{ rewrite Forall_lookup in Hrow. rewrite (Hrow _ _ Hr). lia. }
        rewrite (write_features_insert idx m i x features a) by done.
        unfold write_labels. by rewrite lookup_insert_ne.
      * destruct (decide (declared _ (<[i := x]> m))) as [Hd'|_]; [|done].
        apply Hdecl in Hd' as [[?|[? ?]] _]; done.
Qed.

Lemma fill_doc_raise idx (d : doc) e : fill_doc idx d (Raise e) = Raise e.
Proof.
  unfold fill_doc.
  induction d as [|i x m Hm Hfirst IH] using map_first_key_ind.
  - by rewrite map_fold_empty.
  - rewrite map_fold_insert_first_key by done. by rewrite IH.
Qed.

Lemma fill_docs_raise idx (docs : list doc) e : fill_docs idx docs (Raise e) = Raise e.
Proof.
  revert idx. induction docs as [|d docs IH]; intros idx; [done|].
  simpl. by rewrite fill_doc_raise.
Qed.

(** ** The declared feature ids *)

Lemma pretty_N_go_ne_l x s s' :
  s <> String "l" s' -> pretty_N_go x s <> String "l" s'.
Proof.
  revert s. induction (N.lt_wf_0 x) as [x _ IH]. intros s Hs.
  destruct (decide (x = 0%N)) as [->|Hx]; [by rewrite pretty_N_go_0|].
  rewrite pretty_N_go_step by lia. apply IH.
  - apply N.div_lt; lia.
  - unfold pretty_N_char. repeat case_match; discriminate.
Qed.

Lemma py_str_ne_label n : py_str n <> _LABEL_FEATURE.
Proof.
  unfold py_str, pretty, pretty_nat, pretty, pretty_N, _LABEL_FEATURE.
  case_decide; [discriminate|]. by apply pretty_N_go_ne_l.
Qed.

Lemma lookup_init_features nf ls k a :
  init_features nf ls !! k = Some a <->
  a = np_zeros2 ls 1 /\ exists fid, (fid < nf)%nat /\ k = py_str (fid + 1).
Proof.
  unfold init_features. induction nf as [|nf IH].
  - simpl. rewrite lookup_empty. split; [done|]. intros [_ (fid & ? & _)]. lia.
  - rewrite seq_S, foldl_app. simpl.
    destruct (decide (py_str (nf + 1) = k)) as [<-|Hne].
    + rewrite lookup_insert_eq. split.
      * intros [= <-]. split; [done|]. exists nf. split; [lia|done].
      * by intros [-> _].
    + rewrite lookup_insert_ne by done. rewrite IH. split.
      * intros [-> (fid & ? & ->)]. split; [done|]. exists fid. split; [lia|done].
      * intros [-> (fid & Hfid & ->)]. split; [done|]. exists fid. split; [|done].
        destruct (decide (fid = nf)) as [->|]; [done|lia].
Qed.

Lemma init_features_declared nf ls fid :
  (fid < nf)%nat -> init_features nf ls !! py_str (fid + 1) = Some (np_zeros2 ls 1).
Proof. intros. apply lookup_init_features. eauto. Qed.

Lemma init_features_label nf ls : init_features nf ls !! _LABEL_FEATURE = None.
Proof.
  destruct (init_features nf ls !! _LABEL_FEATURE) as [a|] eqn:H; [|done].
  apply lookup_init_features in H as [_ (fid & _ & H)].
  symmetry in H. by apply py_str_ne_label in H.
Qed.

Lemma lookup_features_of nf ls ds k :
  features_of nf ls ds !! k =
  (fun _ => column_of ls k ds) <$> init_features nf ls !! k.
Proof.
  unfold features_of. rewrite map_lookup_imap.
  by destruct (init_features nf ls !! k).
Qed.

Lemma features_of_nil nf ls : features_of nf ls [] = init_features nf ls.
Proof.
  apply map_eq. intros k. rewrite lookup_features_of.
  destruct (init_features nf ls !! k) as [a|] eqn:Hk; [simpl|done].
  apply lookup_init_features in Hk as [-> _].
  unfold column_of, np_zeros2. simpl. by rewrite Nat.sub_0_r.
Qed.

Lemma labels_of_nil ls : labels_of ls [] = np_full ls _PADDING_LABEL.
Proof. unfold labels_of, np_full. simpl. by rewrite Nat.sub_0_r. Qed.

Lemma labels_of_length ls ds : (length ds <= ls)%nat -> length (labels_of ls ds) = ls.
Proof.
  intros. unfold labels_of. rewrite length_app, length_map, length_replicate. lia.
Qed.

Lemma column_of_length ls k ds : (length ds <= ls)%nat -> length (column_of ls k ds) = ls.
Proof.
  intros. unfold column_of. rewrite length_app, length_map, length_replicate. lia.
Qed.

Lemma agg_wf_closed nf ls ds :
  (length ds <= ls)%nat -> agg_wf ls (features_of nf ls ds) (labels_of ls ds).
Proof.
  intros Hlen. split; [by apply labels_of_length|].
  intros k a. rewrite lookup_features_of.
  destruct (init_features nf ls !! k); [simpl|done]. intros [= <-].
  split; [by apply column_of_length|].
  unfold column_of. apply Forall_app. split.
  - apply Forall_map. by apply Forall_true.
  - by apply Forall_replicate.
Qed.

Lemma declared_closed nf ls ds (d : doc) :
  declared (features_of nf ls ds) d <-> declared (init_features nf ls) d.
Proof.
  unfold declared, map_Forall. split; intros H k v Hk;
    specialize (H k v Hk); by rewrite lookup_features_of, fmap_is_Some in *.
Qed.

Lemma write_labels_closed ls (pre : list doc) (d : doc) :
  (length pre < ls)%nat ->
  write_labels (length pre) d (labels_of ls pre) = labels_of ls (pre ++ [d]).
Proof.
  intros Hlen. unfold write_labels, labels_of.
  rewrite length_app, map_app. simpl.
  replace (ls - length pre)%nat with (S (ls - (length pre + 1))) by lia.
  simpl. rewrite <- app_assoc. simpl.
  destruct (d !! _LABEL_FEATURE) as [v|]; [simpl|done].
  rewrite insert_app_r_alt by (rewrite length_map; lia).
  by rewrite length_map, Nat.sub_diag.
Qed.

Lemma put_cell_closed ls k (pre : list doc) (d : doc) v :
  (length pre < ls)%nat -> d !! k = Some v ->
  put_cell (length pre) v (column_of ls k pre) = column_of ls k (pre ++ [d]).
Proof.
  intros Hlen Hk. unfold put_cell, column_of.
  rewrite length_app, map_app. simpl.
  replace (ls - length pre)%nat with (S (ls - (length pre + 1))) by lia.
  simpl. rewrite <- app_assoc. simpl.
  rewrite alter_app_r_alt by (rewrite length_map; lia).
  by rewrite length_map, Nat.sub_diag, Hk.
Qed.

Lemma column_of_absent ls k (pre : list doc) (d : doc) :
  (length pre < ls)%nat -> d !! k = None ->
  column_of ls k pre = column_of ls k (pre ++ [d]).
Proof.
  intros Hlen Hk. unfold column_of.
  rewrite length_app, map_app. simpl.
  replace (ls - length pre)%nat with (S (ls - (length pre + 1))) by lia.
  simpl. rewrite <- app_assoc. simpl. by rewrite Hk.
Qed.

Lemma write_features_closed nf ls (pre : list doc) (d : doc) :
  (length pre < ls)%nat ->
  write_features (length pre) d (features_of nf ls pre) = features_of nf ls (pre ++ [d]).
Proof.
  intros Hlen. apply map_eq. intros k.
  rewrite lookup_write_features, !lookup_features_of.
  destruct (init_features nf ls !! k) as [a|] eqn:Hk; [simpl|done].
  f_equal. case_decide as Hl.
  { subst k. by rewrite init_features_label in Hk. }
  destruct (d !! k) as [v|] eqn:Hd.
  - by apply put_cell_closed.
  - by apply column_of_absent.
Qed.

(** The loop over [enumerate(doc_list)], resumed after the documents [pre]. *)
Lemma fill_docs_spec nf ls (ds pre : list doc) :
  (length pre + length ds <= ls)%nat ->
  fill_docs (length pre) ds (Ok (features_of nf ls pre, labels_of ls pre)) =
  if decide (Forall (declared (init_features nf ls)) ds)
  then Ok (features_of nf ls (pre ++ ds), labels_of ls (pre ++ ds))
  else Raise TypeError.
Proof.
  revert pre. induction ds as [|d ds IH]; intros pre Hlen.
  - cbn [fill_docs]. rewrite decide_True by constructor. by rewrite app_nil_r.
  - cbn [fill_docs]. cbn [length] in Hlen.
    rewrite (fill_doc_spec ls) by (try apply agg_wf_closed; lia).
    destruct (decide (declared (features_of nf ls pre) d)) as [Hd|Hd].
    + rewrite write_features_closed, write_labels_closed by lia.
      replace (S (length pre)) with (length (pre ++ [d]))
        by (rewrite length_app; simpl; lia).
      rewrite IH by (rewrite length_app; simpl; lia).
      rewrite <- !app_assoc. cbn [app].
      apply declared_closed in Hd.
      destruct (decide (Forall _ ds)) as [Hds|Hds].
      * rewrite decide_True; [done|by constructor].
      * rewrite decide_False; [done|]. by intros [_ ?]%Forall_cons.
    + rewrite fill_docs_raise. rewrite decide_False; [done|].
      intros [Hd' _]%Forall_cons. apply Hd. by apply declared_closed.
Qed.

(** [_libsvm_generate] in closed form: the shuffled list cut to [list_size]
    is written slot by slot; an undeclared feature id among the documents
    kept raises TypeError. *)
Lemma _libsvm_generate_spec g nf ls (doc_list : list doc) :
  _libsvm_generate g nf ls doc_list =
  let ds := take ls (np_random_shuffle g doc_list).1 in
  (if decide (Forall (declared (init_features nf ls)) ds)
   then Ok (features_of nf ls ds, labels_of ls ds)
   else Raise TypeError,
   (np_random_shuffle g doc_list).2).
Proof.
  unfold _libsvm_generate. destruct (np_random_shuffle g doc_list) as [dl g'].
  simpl. f_equal.
  assert ((if decide (ls < length dl)%nat then take ls dl else dl) = take ls dl) as ->.
  { case_decide; [done|]. rewrite take_ge; [done|lia]. }
  pose proof (fill_docs_spec nf ls (take ls dl) []) as Hs.
  rewrite features_of_nil, labels_of_nil in Hs. apply Hs.
  cbn [length]. rewrite length_take. lia.
Qed.

(** A parsed line always carries the label. *)
Lemma _libsvm_parse_line_label line qid (d : doc) :
  _libsvm_parse_line line = Ok (qid, d) -> is_Some (d !! _LABEL_FEATURE).
Proof.
  unfold _libsvm_parse_line. intros Hp.
  repeat match type of Hp with
         | mbind _ ?m = Ok _ => destruct m; simpl in Hp; [|discriminate]
         end.
  injection Hp as <- <-.
  rewrite lookup_union, lookup_singleton_eq.
  destruct (_ !! _LABEL_FEATURE); simpl; eauto.
Qed.

Lemma declared_take nf ls n (ds : list doc) :
  Forall (declared (init_features nf ls)) ds ->
  Forall (declared (init_features nf ls)) (take n ds).
Proof. apply Forall_take. Qed.

Lemma _libsvm_generate_ok g nf ls (doc_list : list doc) :
  Forall (declared (init_features nf ls)) doc_list ->
  _libsvm_generate g nf ls doc_list =
  (Ok (features_of nf ls (take ls (np_random_shuffle g doc_list).1),
       labels_of ls (take ls (np_random_shuffle g doc_list).1)),
   (np_random_shuffle g doc_list).2).
Proof.
  intros Hd. rewrite _libsvm_generate_spec. cbv zeta.
  rewrite decide_True; [done|].
  apply declared_take.
  eapply Permutation_Forall; [apply np_random_shuffle_perm|done].
Qed.

(** On well-formed lines the loop never raises; it ends by finalizing and
    yielding what is left, the aggregate yielded being the one
    [_libsvm_generate] makes of that list; and once the accumulated list is
    non-empty every list it finalizes is. *)
Lemma generator_loop_spec nf ls (lines : list string) (parsed : list (Z * doc)) :
  Forall2 (well_formed_line nf ls) lines parsed ->
  forall g cur (doc_list : list doc),
  Forall (declared (init_features nf ls)) doc_list ->
  exists evs a g',
    generator_loop nf ls g cur doc_list lines =
      (evs ++ [Finalize (accumulated cur doc_list parsed).2; Yield a],
       StopIteration, g') /\
    (doc_list <> [] ->
       (accumulated cur doc_list parsed).2 <> [] /\
       Forall (fun dl => dl <> []) (finalized evs)) /\
    (exists g0,
       _libsvm_generate g0 nf ls (accumulated cur doc_list parsed).2 = (Ok a, g')).
Proof.
  induction 1 as [|line [qid d] lines parsed [Hp Hd] _ IH]; intros g cur doc_list Hdl.
  - cbn [generator_loop accumulated]. rewrite _libsvm_generate_ok by done.
    eexists [], _, _. split; [done|]. split.
    + intros Hne. split; [done|constructor].
    + exists g. by rewrite _libsvm_generate_ok.
  - cbn [generator_loop accumulated]. rewrite Hp. simpl in Hd.
    destruct (qid =? _)%Z.
    + destruct (IH g (if (cur <? 0)%Z then qid else cur) (doc_list ++ [d]))
        as (evs & a & g' & Hrun & Hne & Hgen).
      { apply Forall_app. split; [done|]. by constructor. }
      exists evs, a, g'. split; [done|]. split; [|done]. intros _. apply Hne.
      by destruct doc_list.
    + rewrite _libsvm_generate_ok by done.
      destruct (IH (np_random_shuffle g doc_list).2 qid [d])
        as (evs & a & g' & Hrun & Hne & Hgen).
      { by constructor. }
      rewrite Hrun. destruct Hne as [Hacc Hfin]; [done|].
      eexists (Finalize doc_list :: Yield _ :: evs), a, g'.
      split; [done|]. split; [|done]. intros Hnil. split; [done|]. simpl. by constructor.
Qed.

Lemma _libsvm_generate_nil g nf ls :
  _libsvm_generate g nf ls [] =
  (Ok (init_features nf ls, np_full ls _PADDING_LABEL), (np_random_shuffle g []).2).
Proof.
  rewrite _libsvm_generate_ok by constructor.
  assert ((np_random_shuffle g ([] : list doc)).1 = []) as ->.
  { apply Permutation_nil. apply np_random_shuffle_perm. }
  by rewrite take_nil, features_of_nil, labels_of_nil.
Qed.

(** ** The text aggregator: the claims *)

(** C7. Two lines of query 5 then one line of query 7, feature ids declared
    and [list_size] at least 2: the generator yields exactly two aggregates.
    The first holds the two documents of query 5 in the order [p] the shuffle
    gave them, the second the document of query 7; every label slot after
    them holds the padding label -1 and every feature slot after them 0. *)
Theorem text_aggregator_two_queries nf ls g l1 l2 l3 (d1 d2 d3 : doc) :
  _libsvm_parse_line l1 = Ok (5%Z, d1) ->
  _libsvm_parse_line l2 = Ok (5%Z, d2) ->
  _libsvm_parse_line l3 = Ok (7%Z, d3) ->
  Forall (declared (init_features nf ls)) [d1; d2; d3] ->
  (2 <= ls)%nat ->
  exists (p : list doc) (a1 a2 : aggregate) g',
    inner_generator nf ls g [l1; l2; l3] =
      ([Finalize [d1; d2]; Yield a1; Finalize [d3]; Yield a2], StopIteration, g') /\
    yields (inner_generator nf ls g [l1; l2; l3]).1.1 = [a1; a2] /\
    Permutation [d1; d2] p /\
    Forall (fun d : doc => is_Some (d !! _LABEL_FEATURE)) [d1; d2; d3] /\
    a1.2 = map (fun d : doc => default _PADDING_LABEL (d !! _LABEL_FEATURE)) p
           ++ replicate (ls - 2) _PADDING_LABEL /\
    a2.2 = default _PADDING_LABEL (d3 !! _LABEL_FEATURE)
           :: replicate (ls - 1) _PADDING_LABEL /\
    forall fid, (fid < nf)%nat ->
      a1.1 !! py_str (fid + 1) =
        Some (map (fun d : doc => [default 0%Q (d !! py_str (fid + 1))]) p
              ++ replicate (ls - 2) [0%Q]) /\
      a2.1 !! py_str (fid + 1) =
        Some ([default 0%Q (d3 !! py_str (fid + 1))] :: replicate (ls - 1) [0%Q]).
Proof.
  intros H1 H2 H3 Hd Hls.
  apply Forall_cons in Hd as [Hd1 Hd]. apply Forall_cons in Hd as [Hd2 Hd].
  apply Forall_cons in Hd as [Hd3 _].
  assert (Forall (declared (init_features nf ls)) [d1; d2]) as Hd12
    by (constructor; [done|by constructor]).
  assert (Forall (declared (init_features nf ls)) [d3]) as Hd3'
    by (by constructor).
  pose proof (np_random_shuffle_perm g [d1; d2]) as Hp.
  set (p := (np_random_shuffle g [d1; d2]).1) in *.
  set (g1 := (np_random_shuffle g [d1; d2]).2).
  pose proof (np_random_shuffle_perm g1 [d3]) as Hp3.
  apply Permutation_singleton_l in Hp3.
  assert (length p = 2%nat) as Hlen by (by rewrite <- Hp).
  assert (inner_generator nf ls g [l1; l2; l3] =
    ([Finalize [d1; d2]; Yield (features_of nf ls p, labels_of ls p);
      Finalize [d3]; Yield (features_of nf ls [d3], labels_of ls [d3])],
     StopIteration, (np_random_shuffle g1 [d3]).2)) as Hrun.
  { unfold inner_generator. cbn [generator_loop]. rewrite H1. cbn.
    rewrite H2. cbn. rewrite H3. cbn.
    rewrite !_libsvm_generate_ok by done. fold p g1. rewrite <- Hp3.
    rewrite (take_ge p) by lia. rewrite (take_ge [d3]) by (simpl; lia). done. }
  eexists p, _, _, _. split; [exact Hrun|]. rewrite Hrun.
  split; [done|]. split; [done|]. split.
  { repeat (apply Forall_cons; split; [by eapply _libsvm_parse_line_label|]).
    constructor. }
  cbn [fst snd]. unfold labels_of. rewrite Hlen. split; [done|].
  split; [done|]. intros fid Hfid.
  rewrite !lookup_features_of, init_features_declared by done.
  unfold column_of. by rewrite Hlen.
Qed.

(** C8 (amended). A document that survives the cut to [list_size] and carries
    a feature id that is neither the label nor one of the declared ids
    [str(1)] .. [str(num_features)] makes [_libsvm_generate] raise TypeError:
    nothing is returned for that query. *)
Theorem undeclared_feature_raises g nf ls (doc_list : list doc) (d : doc) k v :
  d ∈ take ls (np_random_shuffle g doc_list).1 ->
  d !! k = Some v ->
  k <> _LABEL_FEATURE ->
  (forall fid, (fid < nf)%nat -> k <> py_str (fid + 1)) ->
  (_libsvm_generate g nf ls doc_list).1 = Raise TypeError.
Proof.
  intros Hin Hk Hl Hfid. rewrite _libsvm_generate_spec. cbv zeta. cbn [fst].
  rewrite decide_False; [done|]. intros Hall.
  rewrite Forall_forall in Hall. specialize (Hall d Hin k v Hk).
  destruct Hall as [?|[a Ha]]; [done|].
  apply lookup_init_features in Ha as [_ (fid & ? & ->)]. by eapply Hfid.
Qed.

(** C9 (amended). On lines that parse to documents of declared feature ids
    the generator never raises and, whatever the input, ends by finalizing
    the list [rest] accumulated at the end of the input and yielding the
    aggregate [_libsvm_generate] makes of it. When the input has a line,
    [rest] and every list finalized before it are non-empty; on the empty
    input the one list finalized is empty and the one aggregate yielded is
    all padding: [list_size] labels of -1 and, for every declared feature, a
    column of [list_size] zeros. *)
Theorem inner_generator_finalizes nf ls g (lines : list string) (parsed : list (Z * doc)) :
  Forall2 (well_formed_line nf ls) lines parsed ->
  let rest := (accumulated (-1) [] parsed).2 in
  exists evs a g',
    inner_generator nf ls g lines = (evs ++ [Finalize rest; Yield a], StopIteration, g') /\
    (lines <> [] -> rest <> [] /\ Forall (fun dl => dl <> []) (finalized evs)) /\
    (lines = [] ->
       rest = [] /\ evs = [] /\
       a = (init_features nf ls, np_full ls _PADDING_LABEL) /\
       a.2 = replicate ls _PADDING_LABEL /\
       forall k m, a.1 !! k = Some m <->
         m = replicate ls [0%Q] /\ exists fid, (fid < nf)%nat /\ k = py_str (fid + 1)) /\
    (exists g0, _libsvm_generate g0 nf ls rest = (Ok a, g')).
Proof.
  intros Hwf rest. destruct Hwf as [|line [qid d] lines parsed [Hp Hd] Hwf].
  - unfold inner_generator. cbn [generator_loop].
    rewrite _libsvm_generate_nil.
    eexists [], _, _. split; [done|]. split; [done|]. split.
    + intros _. split; [done|]. split; [done|]. split; [done|]. split; [done|].
      intros k m. cbn [fst]. apply lookup_init_features.
    + exists g. apply _libsvm_generate_nil.
  - destruct (generator_loop_spec nf ls lines parsed Hwf g qid [d])
      as (evs & a & g' & Hrun & Hne & Hgen); [by constructor|].
    destruct Hne as [Hrest Hfin]; [done|].
    exists evs, a, g'. subst rest. unfold inner_generator.
    cbn [generator_loop accumulated]. rewrite Hp. cbn. rewrite Z.eqb_refl.
    split; [done|]. split; [done|]. split; [done|]. done.
Qed.

End LibSVMTheory.

(** ** The text aggregator: further properties *)

Section LibSVMFurther.
Context {builtins : Builtins}.

(** Whatever [_libsvm_generate] returns has the shape the caller asked for:
    [list_size] labels, and a feature matrix of [list_size] rows and one
    column for each of the ids [str(1)] .. [str(num_features)] and for no
    other key. *)
Theorem _libsvm_generate_shape g nf ls (doc_list : list doc)
    (features : gmap string matrix) (labels : list Q) :
  (_libsvm_generate g nf ls doc_list).1 = Ok (features, labels) ->
  length labels = ls /\
  (forall k, is_Some (features !! k) <->
             exists fid, (fid < nf)%nat /\ k = py_str (fid + 1)) /\
  (forall k a, features !! k = Some a ->
     length a = ls /\ Forall (fun row => length row = 1%nat) a).
Proof.
  rewrite _libsvm_generate_spec. cbv zeta. cbn [fst].
  case_decide; [|done]. intros [= <- <-].
  assert (length (take ls (np_random_shuffle g doc_list).1) <= ls)%nat as Hlen
    by (rewrite length_take; lia).
  destruct (agg_wf_closed nf ls _ Hlen) as [Hl Hf].
  split; [done|]. split; [|done].
  intros k. rewrite lookup_features_of, fmap_is_Some. split.
  - intros [a Ha]. by apply lookup_init_features in Ha as [_ ?].
  - intros (fid & Hfid & ->). rewrite init_features_declared by done. eauto.
Qed.

(** [_libsvm_generate] slot by slot. With every feature id declared, the
    documents written are the first [list_size] of the shuffled list, in that
    order: slot [i] holds the label and the feature values of the [i]-th of
    them, with 0 for a feature the document does not carry and the padding
    label for a document without label; the slots after them hold the
    padding label and 0. Documents beyond [list_size] are dropped. *)
Theorem _libsvm_generate_slots g nf ls (doc_list : list doc) :
  (forall (d : doc) k v, d ∈ doc_list -> d !! k = Some v ->
     k = _LABEL_FEATURE \/ exists fid, (fid < nf)%nat /\ k = py_str (fid + 1)) ->
  exists (shuffled : list doc) (features : gmap string matrix) (labels : list Q) g',
    _libsvm_generate g nf ls doc_list = (Ok (features, labels), g') /\
    Permutation doc_list shuffled /\
    labels = map (fun d : doc => default _PADDING_LABEL (d !! _LABEL_FEATURE))
                 (take ls shuffled)
             ++ replicate (ls - length shuffled) _PADDING_LABEL /\
    forall fid, (fid < nf)%nat ->
      features !! py_str (fid + 1) =
        Some (map (fun d : doc => [default 0%Q (d !! py_str (fid + 1))]) (take ls shuffled)
              ++ replicate (ls - length shuffled) [0%Q]).
Proof.
  intros Hdecl.
  assert (Forall (declared (init_features nf ls)) doc_list) as Hall.
  { apply Forall_forall. intros d Hd k v Hk.
    destruct (Hdecl d k v Hd Hk) as [?|(fid & Hfid & ->)]; [by left|right].
    rewrite init_features_declared by done. eauto. }
  rewrite _libsvm_generate_ok by done.
  eexists (np_random_shuffle g doc_list).1, _, _, _. split; [done|].
  split; [apply np_random_shuffle_perm|].
  assert (forall n m : nat, (n - Nat.min n m = n - m)%nat) as Hmin by lia.
  unfold labels_of. rewrite length_take, Nat.min_comm, Nat.min_comm.
  split.
  - f_equal. f_equal. lia.
  - intros fid Hfid. rewrite lookup_features_of, init_features_declared by done.
    simpl. unfold column_of. rewrite length_take. do 3 f_equal. lia.
Qed.

Lemma query_runs_head_nonempty (run : list (Z * doc)) runs :
  query_runs (run :: runs) -> run <> [].
Proof. by inversion 1. Qed.

Lemma generator_loop_groups nf ls (lines : list string) (parsed : list (Z * doc)) :
  Forall2 (well_formed_line nf ls) lines parsed ->
  Forall (fun p => (0 <= p.1)%Z) parsed ->
  forall g cur (run : list (Z * doc)),
  run <> [] -> Forall (fun p => p.1 = cur) run -> (0 <= cur)%Z ->
  Forall (declared (init_features nf ls)) (map snd run) ->
  exists (first : list (Z * doc)) groups evs g',
    generator_loop nf ls g cur (map snd run) lines = (evs, StopIteration, g') /\
    query_runs (first :: groups) /\
    Forall (fun p => p.1 = cur) first /\
    mjoin (first :: groups) = run ++ parsed /\
    finalized evs = map (map snd) (first :: groups) /\
    length (yields evs) = length (first :: groups).
Proof.
  induction 1 as [|line [qid d] lines parsed [Hp Hd] _ IH];
    intros Hnn g cur run Hne Hq Hcur Hdecl.
  - cbn [generator_loop]. rewrite _libsvm_generate_ok by done.
    eexists run, [], _, _. split; [done|]. split; [by eapply query_runs_last|].
    split; [done|]. split; [by rewrite app_nil_r; simpl; rewrite app_nil_r|].
    done.
  - apply Forall_cons in Hnn as [Hqid Hnn]. simpl in Hqid, Hd.
    cbn [generator_loop]. rewrite Hp.
    rewrite (proj2 (Z.ltb_ge cur 0) Hcur).
    destruct (Z.eqb_spec qid cur) as [->|Hneq].
    + destruct (IH Hnn g cur (run ++ [(cur, d)]))
        as (first & groups & evs & g' & Hrun & Hruns & Hfirst & Hjoin & Hfin & Hlen).
      * by destruct run.
      * apply Forall_app. split; [done|]. by constructor.
      * done.
      * rewrite map_app. apply Forall_app. split; [done|]. by constructor.
      * exists first, groups, evs, g'. rewrite map_app in Hrun. simpl in Hrun.
        split; [done|]. split; [done|]. split; [done|].
        split; [by rewrite Hjoin, <- app_assoc|]. done.
    + rewrite _libsvm_generate_ok by done.
      destruct (IH Hnn (np_random_shuffle g (map snd run)).2 qid [(qid, d)])
        as (first & groups & evs & g' & Hrun & Hruns & Hfirst & Hjoin & Hfin & Hlen).
      * done.
      * by constructor.
      * done.
      * by constructor.
      * simpl in Hrun. rewrite Hrun.
        eexists run, (first :: groups), _, g'. split; [done|].
        split; [by eapply (query_runs_next cur qid)|].
        split; [done|]. split.
        { change (mjoin (run :: first :: groups)) with (run ++ mjoin (first :: groups)).
          by rewrite Hjoin. }
        split.
        { change (finalized (Finalize (map snd run) :: Yield ?a :: evs))
            with (map snd run :: finalized evs). by rewrite Hfin. }
        change (yields (Finalize (map snd run) :: Yield ?a :: evs))
          with (a :: yields evs). simpl. by rewrite Hlen.
Qed.

(** On a non-empty input of well-formed lines whose query ids are not
    negative, the generator yields one aggregate per maximal run of equal
    query id: the lists it finalizes are these runs, in the order of the
    input, with no document lost, repeated or moved to another run. A query
    id that comes back after another one starts a run of its own. *)
Theorem inner_generator_groups nf ls g (lines : list string) (parsed : list (Z * doc)) :
  Forall2 (well_formed_line nf ls) lines parsed ->
  Forall (fun p => (0 <= p.1)%Z) parsed ->
  lines <> [] ->
  exists (groups : list (list (Z * doc))) evs g',
    inner_generator nf ls g lines = (evs, StopIteration, g') /\
    query_runs groups /\
    mjoin groups = parsed /\
    finalized evs = map (map snd) groups /\
    length (yields evs) = length groups.
Proof.
  intros Hwf Hnn Hne. destruct Hwf as [|line [qid d] lines parsed [Hp Hd] Hwf]; [done|].
  apply Forall_cons in Hnn as [Hqid Hnn]. simpl in Hqid, Hd.
  destruct (generator_loop_groups nf ls lines parsed Hwf Hnn g qid [(qid, d)])
    as (first & groups & evs & g' & Hrun & Hruns & Hfirst & Hjoin & Hfin & Hlen).
  - done.
  - by constructor.
  - done.
  - by constructor.
  - exists (first :: groups), evs, g'. unfold inner_generator.
    cbn [generator_loop]. rewrite Hp. cbn. rewrite Z.eqb_refl.
    split; [exact Hrun|]. split; [done|]. split; [exact Hjoin|]. done.
Qed.

Lemma generator_loop_negative nf ls (lines : list string) (parsed : list (Z * doc)) :
  Forall2 (well_formed_line nf ls) lines parsed ->
  Forall (fun p => (p.1 < 0)%Z) parsed ->
  forall g cur (doc_list : list doc) line' q' (d' : doc),
  (cur < 0)%Z ->
  well_formed_line nf ls line' (q', d') ->
  Forall (declared (init_features nf ls)) doc_list ->
  exists a g',
    generator_loop nf ls g cur doc_list (lines ++ [line']) =
      ([Finalize (doc_list ++ map snd parsed ++ [d']); Yield a], StopIteration, g').
Proof.
  induction 1 as [|line [qid d] lines parsed [Hp Hd] _ IH];
    intros Hneg g cur doc_list line' q' d' Hcur [Hp' Hd'] Hdecl.
  - simpl in *. rewrite Hp'. rewrite (proj2 (Z.ltb_lt cur 0) Hcur), Z.eqb_refl.
    rewrite _libsvm_generate_ok
      by (apply Forall_app; split; [done|by constructor]).
    by eexists _, _.
  - apply Forall_cons in Hneg as [Hqid Hneg]. simpl in Hqid, Hd.
    cbn [app generator_loop]. rewrite Hp.
    rewrite (proj2 (Z.ltb_lt cur 0) Hcur), Z.eqb_refl.
    destruct (IH Hneg g qid (doc_list ++ [d]) line' q' d') as (a & g' & Hrun).
    + done.
    + done.
    + apply Forall_app. split; [done|]. by constructor.
    + exists a, g'. rewrite Hrun. simpl. by rewrite <- app_assoc.
Qed.

(** Negative query ids do not separate queries. [cur] is reset on every line
    for as long as it is negative, so after lines of negative query id the
    next line joins their list whatever its own query id is: lines of
    negative ids followed by one more line give a single aggregate of all
    the documents. *)
Theorem negative_qids_are_merged nf ls g (lines : list string) (parsed : list (Z * doc))
    line' q' (d' : doc) :
  Forall2 (well_formed_line nf ls) lines parsed ->
  Forall (fun p => (p.1 < 0)%Z) parsed ->
  well_formed_line nf ls line' (q', d') ->
  exists a g',
    inner_generator nf ls g (lines ++ [line']) =
      ([Finalize (map snd parsed ++ [d']); Yield a], StopIteration, g').
Proof.
  intros Hwf Hneg Hwf'.
  destruct (generator_loop_negative nf ls lines parsed Hwf Hneg g (-1)%Z [] line' q' d')
    as (a & g' & Hrun); [lia|done|constructor|].
  by exists a, g'.
Qed.

Lemma generator_loop_parse_error nf ls (good : list string) (parsed : list (Z * doc))
    bad e (rest : list string) :
  Forall2 (well_formed_line nf ls) good parsed ->
  _libsvm_parse_line bad = Raise e ->
  forall g cur (doc_list : list doc),
  Forall (declared (init_features nf ls)) doc_list ->
  exists evs left a g' g'',
    generator_loop nf ls g cur doc_list good
      = (evs ++ [Finalize left; Yield a], StopIteration, g'') /\
    generator_loop nf ls g cur doc_list (good ++ bad :: rest) = (evs, Raised e, g').
Proof.
  intros Hwf Hbad.
  induction Hwf as [|line [qid d] lines parsed [Hp Hd] _ IH]; intros g cur doc_list Hdecl.
  - cbn [app generator_loop]. rewrite Hbad, _libsvm_generate_ok by done.
    by eexists [], _, _, _, _.
  - cbn [app generator_loop]. rewrite Hp. simpl in Hd.
    destruct (qid =? _)%Z.
    + apply IH. apply Forall_app. split; [done|]. by constructor.
    + rewrite _libsvm_generate_ok by done.
      destruct (IH (np_random_shuffle g doc_list).2 qid [d])
        as (evs & left & a & g' & g'' & Hgood & Hfail); [by constructor|].
      rewrite Hgood, Hfail.
      by eexists (Finalize doc_list :: Yield _ :: evs), left, a, g', g''.
Qed.

(** A line that does not parse ends the generator with the exception of
    [_libsvm_parse_line]. What was yielded before is what the lines before
    it give without their last aggregate: the documents accumulated for the
    query that was open are lost, and the lines after the bad one are never
    read. *)
Theorem parse_error_loses_open_query nf ls g (good : list string)
    (parsed : list (Z * doc)) bad e (rest : list string) :
  Forall2 (well_formed_line nf ls) good parsed ->
  _libsvm_parse_line bad = Raise e ->
  exists evs left a g' g'',
    inner_generator nf ls g good = (evs ++ [Finalize left; Yield a], StopIteration, g'') /\
    inner_generator nf ls g (good ++ bad :: rest) = (evs, Raised e, g').
Proof.
  intros Hwf Hbad. unfold inner_generator.
  by apply (generator_loop_parse_error nf ls good parsed).
Qed.

Lemma py_split_blank (s : string) :
  Forall (fun c => is_space c = true) (list_ascii_of_string s) -> py_split s = [].
Proof.
  unfold py_split. induction 1 as [|c cs Hc _ IH]; simpl; [done|]. by rewrite Hc.
Qed.

(** A line with fewer than two tokens, an empty or blank line among them,
    has no query id token: [_libsvm_parse_line] raises IndexError, and a
    generator that meets such a line after well-formed ones ends with that
    IndexError. *)
Theorem short_line_raises nf ls g (good : list string) (parsed : list (Z * doc))
    bad (rest : list string) :
  Forall2 (well_formed_line nf ls) good parsed ->
  (length (py_split bad) < 2)%nat ->
  _libsvm_parse_line bad = Raise IndexError /\
  (inner_generator nf ls g (good ++ bad :: rest)).1.2 = Raised IndexError.
Proof.
  intros Hwf Hshort.
  assert (_libsvm_parse_line bad = Raise IndexError) as Hbad.
  { unfold _libsvm_parse_line. rewrite (lookup_ge_None_2 (py_split bad) 1); [done|lia]. }
  split; [done|]. unfold inner_generator.
  destruct (generator_loop_parse_error nf ls good parsed bad IndexError rest Hwf Hbad
              g (-1)%Z []) as (evs & left & a & g' & g'' & _ & ->); [constructor|done].
Qed.

Lemma foldl_parse_key_value (toks : list string) (kvs : list (string * Q)) (d0 : doc) :
  Forall2 (fun tok (kv : string * Q) =>
             exists s, py_split_on ":" tok = [kv.1; s] /\ py_float s = Some kv.2)
          toks kvs ->
  foldl parse_key_value (Ok d0) (map (py_split_on ":") toks) =
  Ok (foldl (fun (d : doc) (kv : string * Q) => <[kv.1 := kv.2]> d) d0 kvs).
Proof.
  intros H. revert d0. induction H as [|tok [k v] toks kvs (s & Hs & Hv) _ IH]; intros d0.
  - done.
  - simpl in *. rewrite Hs. simpl. rewrite Hv. simpl. apply IH.
Qed.

Lemma lookup_foldl_insert (kvs : list (string * Q)) (d0 : doc) k :
  foldl (fun (d : doc) (kv : string * Q) => <[kv.1 := kv.2]> d) d0 kvs !! k =
  match last (filter (fun kv : string * Q => kv.1 = k) kvs) with
  | Some kv => Some kv.2
  | None => d0 !! k
  end.
Proof.
  induction kvs as [|[k' v] kvs IH] using rev_ind; [done|].
  rewrite foldl_app, filter_app. simpl. rewrite filter_cons, filter_nil. simpl.
  destruct (decide (k' = k)) as [->|Hne].
  - rewrite lookup_insert_eq. by rewrite last_snoc.
  - rewrite lookup_insert_ne by done. by rewrite app_nil_r.
Qed.

(** A line of the LibSVM grammar parses. Its query id is read after the
    first colon of the second token (whatever stands before the colon), its
    label from the first token, and each further token [key:value] gives the
    feature [key]; when a key occurs more than once its last value stays,
    and a feature that is named [label] replaces the label of the line. *)
Theorem _libsvm_parse_line_grammar line t0 t1 (toks : list string) q qid lab
    (kvs : list (string * Q)) :
  py_split line = t0 :: t1 :: toks ->
  py_split_on ":" t1 !! 1%nat = Some q ->
  py_int q = Some qid ->
  py_float t0 = Some lab ->
  Forall2 (fun tok (kv : string * Q) =>
             exists s, py_split_on ":" tok = [kv.1; s] /\ py_float s = Some kv.2)
          toks kvs ->
  exists d : doc,
    _libsvm_parse_line line = Ok (qid, d) /\
    forall k, d !! k =
      match last (filter (fun kv : string * Q => kv.1 = k) kvs) with
      | Some kv => Some kv.2
      | None => if decide (k = _LABEL_FEATURE) then Some lab else None
      end.
Proof.
  intros Hsplit Hq Hqid Hlab Htoks. unfold _libsvm_parse_line.
  rewrite Hsplit. cbn [lookup list_lookup of_option mbind result_bind drop].
  rewrite Hq. cbn [of_option mbind result_bind]. rewrite Hqid.
  cbn [of_option mbind result_bind]. rewrite Hlab. cbn [of_option mbind result_bind].
  rewrite drop_0, (foldl_parse_key_value toks kvs) by done.
  cbn [mbind result_bind]. eexists. split; [done|]. intros k.
  rewrite lookup_union, lookup_foldl_insert, lookup_empty.
  destruct (last _) as [kv|].
  - by destruct (_ !! k).
  - case_decide as Hk.
    + subst k. by rewrite lookup_singleton_eq.
    + by rewrite lookup_singleton_ne.
Qed.

End LibSVMFurther.

(** From here on the aggregator runs on plain decimal literals and a shuffle
    that keeps the order. *)
#[local] Existing Instance plain_builtins.

Example parse_line_example :
  _libsvm_parse_line "1 qid:5 1:0.5" =
  Ok (5%Z, <["1" := Qmake 5 10]> {[ "label" := inject_Z 1 ]}).
Proof. vm_compute. reflexivity. Qed.

Example generate_example :
  _libsvm_generate tt 1 3 [ <["1" := Qmake 5 10]> {[ "label" := inject_Z 1 ]} ] =
  (Ok ({[ "1" := [[Qmake 5 10]; [0%Q]; [0%Q]] ]},
       [inject_Z 1; _PADDING_LABEL; _PADDING_LABEL]), tt).
Proof. vm_compute. reflexivity. Qed.

Lemma text_aggregator_two_queries_witness :
  exists (p : list doc) (a1 a2 : aggregate),
    yields (inner_generator 1 3 tt
              ["1 qid:5 1:0.5"; "0 qid:5 1:0.9"; "1 qid:7 1:0.1"]).1.1 = [a1; a2] /\
    Permutation [ <["1" := Qmake 5 10]> {[ "label" := inject_Z 1 ]};
                  <["1" := Qmake 9 10]> {[ "label" := inject_Z 0 ]} ] p /\
    a1.2 = map (fun d : doc => default _PADDING_LABEL (d !! _LABEL_FEATURE)) p
           ++ [_PADDING_LABEL] /\
    a2.2 = [inject_Z 1; _PADDING_LABEL; _PADDING_LABEL].
Proof.
  destruct (text_aggregator_two_queries (builtins := plain_builtins) 1 3 tt
              "1 qid:5 1:0.5" "0 qid:5 1:0.9" "1 qid:7 1:0.1"
              (<["1" := Qmake 5 10]> {[ "label" := inject_Z 1 ]})
              (<["1" := Qmake 9 10]> {[ "label" := inject_Z 0 ]})
              (<["1" := Qmake 1 10]> {[ "label" := inject_Z 1 ]}))
    as (p & a1 & a2 & g' & _ & Hy & Hp & _ & H1 & H2 & _).
  - vm_compute. reflexivity.
  - vm_compute. reflexivity.
  - vm_compute. reflexivity.
  - apply (bool_decide_unpack _). vm_compute. exact I.
  - lia.
  - exists p, a1, a2. split; [exact Hy|]. split; [exact Hp|].
    split; [exact H1|exact H2].
Defined.

(** C8, refuted as stated: with one declared feature, the record of the line
    [1 qid:1 1:0.5 7:0.25] carries the undeclared id 7. Finalization raises
    TypeError and the generator yields nothing. *)
Lemma undeclared_feature_not_ignored :
  (_libsvm_generate tt 1 1
     [ <["7" := Qmake 25 100]> (<["1" := Qmake 5 10]> {[ "label" := inject_Z 1 ]}) ]).1
    = Raise TypeError /\
  yields (inner_generator 1 1 tt ["1 qid:1 1:0.5 7:0.25"]).1.1 = [] /\
  (inner_generator 1 1 tt ["1 qid:1 1:0.5 7:0.25"]).1.2 = Raised TypeError.
Proof. vm_compute. repeat split; reflexivity. Qed.

Lemma undeclared_feature_raises_witness :
  (_libsvm_generate tt 1 1
     [ <["7" := Qmake 25 100]> (<["1" := Qmake 5 10]> {[ "label" := inject_Z 1 ]}) ]).1
    = Raise TypeError.
Proof.
  apply (undeclared_feature_raises (builtins := plain_builtins) tt 1 1 _
           (<["7" := Qmake 25 100]> (<["1" := Qmake 5 10]> {[ "label" := inject_Z 1 ]}))
           "7" (Qmake 25 100)).
  - simpl. apply list_elem_of_here.
  - vm_compute. reflexivity.
  - discriminate.
  - intros fid Hfid. assert (fid = 0%nat) as -> by lia. vm_compute. discriminate.
Defined.

(** C9, refuted as stated: on the empty input the generator finalizes the
    empty list (and yields an aggregate of padding only). *)
Lemma empty_input_finalizes_empty_list :
  ~ Forall (fun dl : list doc => dl <> []) (finalized (inner_generator 1 3 tt []).1.1) /\
  yields (inner_generator 1 3 tt []).1.1 =
    [({[ "1" := [[0%Q]; [0%Q]; [0%Q]] ]}, [_PADDING_LABEL; _PADDING_LABEL; _PADDING_LABEL])].
Proof.
  split; [|vm_compute; reflexivity].
  intros Hall. vm_compute in Hall. inversion Hall as [|?? Hne _]. by apply Hne.
Qed.

Lemma inner_generator_finalizes_witness :
  exists evs a g' rest,
    inner_generator 1 3 tt ["1 qid:5 1:0.5"; "0 qid:5 1:0.9"; "1 qid:7 1:0.1"] =
      (evs ++ [Finalize rest; Yield a], StopIteration, g') /\
    rest <> [] /\ Forall (fun dl => dl <> []) (finalized evs).
Proof.
  destruct (inner_generator_finalizes (builtins := plain_builtins) 1 3 tt
              ["1 qid:5 1:0.5"; "0 qid:5 1:0.9"; "1 qid:7 1:0.1"]
              [ (5%Z, <["1" := Qmake 5 10]> {[ "label" := inject_Z 1 ]});
                (5%Z, <["1" := Qmake 9 10]> {[ "label" := inject_Z 0 ]});
                (7%Z, <["1" := Qmake 1 10]> {[ "label" := inject_Z 1 ]}) ])
    as (evs & a & g' & Hrun & Hne & _).
  - repeat (apply Forall2_cons; split;
      [split; [vm_compute; reflexivity|apply (bool_decide_unpack _); vm_compute; exact I]|]).
    apply Forall2_nil. done.
  - exists evs, a, g', (accumulated (-1) []
      [ (5%Z, <["1" := Qmake 5 10]> {[ "label" := inject_Z 1 ]});
        (5%Z, <["1" := Qmake 9 10]> {[ "label" := inject_Z 0 ]});
        (7%Z, <["1" := Qmake 1 10]> {[ "label" := inject_Z 1 ]}) ]).2.
    split; [exact Hrun|]. apply Hne. discriminate.
Defined.

(** ** The first loop: scalar defaults and the padding values *)

Lemma _get_scalar_default_value_raise dt v e :
  _get_scalar_default_value dt v = Raise e -> e = ValueError /\ dt <> DT_STRING.
Proof.
  unfold _get_scalar_default_value. case_decide; [done|].
  intros Hr. split; [|done].
  repeat (case_match; simplify_eq; try done).
Qed.

Lemma omap_insert_fresh {A B} (f : A -> option B) (m : gmap string A) i x :
  m !! i = None ->
  omap f (<[i := x]> m) =
  match f x with
  | Some y => <[i := y]> (omap f m)
  | None => omap f m
  end.
Proof.
  intros Hm. rewrite omap_insert. destruct (f x); [done|].
  apply delete_id. by rewrite lookup_omap, Hm.
Qed.

Lemma collect_specs_spec (example_feature_spec : gmap string FeatureSpec) :
  collect_specs example_feature_spec =
  if decide (map_Forall (fun _ s => resolvable s) example_feature_spec)
  then Ok (omap sequence_spec_of example_feature_spec,
           omap padding_value_of example_feature_spec)
  else Raise ValueError.
Proof.
  unfold collect_specs.
  induction example_feature_spec as [|k s m Hk Hfirst IH] using map_first_key_ind.
  - rewrite map_fold_empty, decide_True by apply map_Forall_empty.
    by rewrite !omap_empty.
  - rewrite map_fold_insert_first_key by done. rewrite IH. clear IH Hfirst.
    assert (map_Forall (fun _ s => resolvable s) (<[k := s]> m) <->
            resolvable s /\ map_Forall (fun _ s => resolvable s) m) as Hall
      by (by rewrite map_Forall_insert).
    destruct (decide (map_Forall _ m)) as [Hm|Hm]; cycle 1.
    { destruct (decide (map_Forall _ (<[k := s]> m))) as [Hm'|_]; [|done].
      apply Hall in Hm'. tauto. }
    rewrite !omap_insert_fresh by done. unfold collect_spec. simpl.
    destruct s as [shp dt dv|dt|shp dt am dv]; simpl in *.
    + destruct (_get_scalar_default_value dt dv) as [scalar|e] eqn:Hs; simpl.
      * destruct (decide (map_Forall _ (<[k := _]> m))) as [_|[]]; [|apply Hall; eauto].
        { by destruct (non_trivial scalar). }
        split; [by exists scalar|done].
      * apply _get_scalar_default_value_raise in Hs as [-> _].
        destruct (decide (map_Forall _ (<[k := _]> m))) as [Hm'|_]; [|done].
        apply Hall in Hm' as [[? ?] _]. done.
    + destruct (decide (map_Forall _ (<[k := _]> m))) as [_|[]]; [done|].
      by apply Hall.
    + destruct (decide (map_Forall _ (<[k := _]> m))) as [_|[]]; [done|].
      by apply Hall.
Qed.

Lemma non_trivial_spec v : non_trivial v = truthy v && negb (is_text v).
Proof. unfold non_trivial. destruct v; simpl; by rewrite ?andb_true_r, ?andb_diag. Qed.

(** ** The third loop: shapes after normalisation *)

Lemma list_two_lookups {A} (l : list A) a b :
  l !! 0%nat = Some a -> l !! 1%nat = Some b -> l = a :: b :: drop 2 l.
Proof. destruct l as [|? [|? ?]]; naive_solver. Qed.

Lemma of_option_ok {A} e (o : option A) a : of_option e o = Ok a <-> o = Some a.
Proof. destruct o; simpl; naive_solver. Qed.

Ltac bind_ok H :=
  repeat match type of H with
         | mbind _ ?m = Ok _ =>
             let E := fresh "E" in destruct m eqn:E; simpl in H; [|discriminate]
         | fmap _ ?m = Ok _ =>
             let E := fresh "E" in destruct m eqn:E; simpl in H; [|discriminate]
         end.

Lemma normalize_shape gm spec L La k t t' :
  normalize gm spec L La k t = Ok t' ->
  tf_shape t' !! 1%nat = Some L /\
  (is_dense t <-> is_dense t') /\
  (is_dense t' -> static_second t' = Some La).
Proof.
  unfold normalize, num_frames_of. intros Hn. bind_ok Hn.
  apply of_option_ok in E, E0.
  destruct (decide (L < a)%nat) as [Hlt|Hge].
  - destruct t as [d|st]; simpl in *.
    + bind_ok E2. injection E2 as <-. bind_ok Hn. injection Hn as <-.
      unfold tf_slice in E3. case_decide; [|done]. injection E3 as <-.
      unfold set_second in E2. case_decide; [|done]. injection E2 as <-.
      simpl. split; [done|]. split; [done|]. intros _.
      by rewrite list_lookup_insert_eq.
    + bind_ok E2. injection E2 as <-. injection Hn as <-.
      unfold tf_sparse_slice in E3. case_decide as Hlen; [|done]. injection E3 as <-.
      simpl. split; [|done].
      destruct (dense_shape st) as [|d0 [|F rest]]; simplify_eq/=.
      f_equal. lia.
  - destruct t as [d|st]; simpl in *.
    + bind_ok E2. injection E2 as <-. bind_ok Hn. injection Hn as <-.
      unfold tf_pad in E4. case_decide; [|done]. injection E4 as <-.
      unfold set_second in E2. case_decide; [|done]. injection E2 as <-.
      simpl. split.
      * destruct (shape (value d)) as [|d0 [|F rest]]; simplify_eq/=.
        f_equal. lia.
      * split; [done|]. intros _. by rewrite list_lookup_insert_eq.
    + bind_ok E2. injection E2 as <-. injection Hn as <-.
      unfold tf_sparse_reset_shape in E3. repeat case_decide; try done.
      injection E3 as <-. simpl. done.
Qed.

Lemma normalize_all_spec gm spec L La (context examples out : gmap string Feature) :
  normalize_all gm spec L La context examples = Ok out ->
  (forall k t, examples !! k = Some t ->
     exists t', normalize gm spec L La k t = Ok t' /\ out !! k = Some t') /\
  (forall k, examples !! k = None -> out !! k = context !! k).
Proof.
  unfold normalize_all. revert out.
  induction examples as [|k t m Hk Hfirst IH] using map_first_key_ind; intros out.
  - rewrite map_fold_empty. intros [= <-]. split; [|done].
    intros k t. by rewrite lookup_empty.
  - rewrite map_fold_insert_first_key by done. intros Hn. bind_ok Hn.
    injection Hn as <-. destruct (IH _ eq_refl) as [IH1 IH2]. split.
    + intros k' t'. destruct (decide (k = k')) as [<-|Hne].
      * rewrite lookup_insert_eq. intros [= <-]. exists a0.
        by rewrite lookup_insert_eq.
      * rewrite !lookup_insert_ne by done. apply IH1.
    + intros k'. destruct (decide (k = k')) as [<-|Hne].
      * by rewrite lookup_insert_eq.
      * rewrite !lookup_insert_ne by done. apply IH2.
Qed.

(** ** The second loop keeps the shapes *)

Lemma reset_padding_shape sizes k v (examples examples' : gmap string Feature) :
  reset_padding sizes k v (Ok examples) = Ok examples' ->
  forall j, (tf_shape <$> examples' !! j) = (tf_shape <$> examples !! j) /\
            (is_dense <$> examples' !! j) = (is_dense <$> examples !! j).
Proof.
  unfold reset_padding. simpl. intros Hr. bind_ok Hr.
  destruct a as [tensor|?]; [|done]. case_decide; [|done]. bind_ok Hr.
  injection Hr as <-. apply of_option_ok in E.
  unfold tf_where in E6. case_decide; [|done]. injection E6 as <-.
  intros j. destruct (decide (k = j)) as [<-|Hne].
  - by rewrite lookup_insert_eq, E.
  - by rewrite lookup_insert_ne.
Qed.

Lemma reset_paddings_shape (padding_values : gmap string pyval) sizes
    (examples examples' : gmap string Feature) :
  reset_paddings padding_values examples sizes = Ok examples' ->
  forall j, (tf_shape <$> examples' !! j) = (tf_shape <$> examples !! j) /\
            (is_dense <$> examples' !! j) = (is_dense <$> examples !! j).
Proof.
  unfold reset_paddings. revert examples'.
  induction padding_values as [|k v m Hk Hfirst IH] using map_first_key_ind;
    intros examples'.
  - rewrite map_fold_empty. by intros [= <-].
  - rewrite map_fold_insert_first_key by done.
    destruct (map_fold (reset_padding sizes) (Ok examples) m) as [ex1|e] eqn:Hm.
    + intros Hr j. destruct (reset_padding_shape _ _ _ _ _ Hr j) as [-> ->].
      by apply IH.
    + done.
Qed.

(** ** The dynamic list size is the largest number of positions *)

Lemma mapM_result_ok {A B} (f : A -> result B) (l : list A) (k : list B) :
  mapM f l = Ok k <-> Forall2 (fun a b => f a = Ok b) l k.
Proof.
  revert k. induction l as [|a l IH]; intros k; simpl.
  - split; [intros [= <-]; constructor|by inversion 1].
  - split.
    + intros Hm. bind_ok Hm. injection Hm as <-.
      constructor; [done|by apply IH].
    + inversion 1 as [|???? Ha Hl]; subst. rewrite Ha. simpl.
      apply IH in Hl. rewrite Hl. done.
Qed.

Lemma tf_reduce_max_ge dims n : n ∈ dims -> (n <= tf_reduce_max dims)%nat.
Proof.
  unfold tf_reduce_max. induction 1 as [|? ? ? _ IH]; simpl; lia.
Qed.

Lemma tf_reduce_max_in dims : dims <> [] -> tf_reduce_max dims ∈ dims.
Proof.
  induction dims as [|n dims IH]; [done|]. intros _. simpl.
  destruct dims as [|m dims'].
  - simpl. rewrite Nat.max_0_r. apply list_elem_of_here.
  - specialize (IH ltac:(done)). unfold tf_reduce_max in *.
    destruct (Nat.max_spec n (foldr Nat.max 0%nat (m :: dims'))) as [[_ ->]|[_ ->]].
    + by apply list_elem_of_further.
    + apply list_elem_of_here.
Qed.

Lemma list_size_dynamic_max (examples : gmap string Feature) L :
  list_size_dynamic examples = Ok L -> examples <> ∅ -> batch_max examples L.
Proof.
  unfold list_size_dynamic. intros Hl Hne. bind_ok Hl. injection Hl as <-.
  apply mapM_result_ok in E. split.
  - intros k t n Hk Hn. apply tf_reduce_max_ge.
    apply elem_of_map_to_list in Hk.
    apply list_elem_of_lookup in Hk as [i Hi].
    destruct (Forall2_lookup_l _ _ _ _ _ E Hi) as (m & Hm & Hf).
    unfold num_frames_of in Hf. simpl in Hf. rewrite Hn in Hf. injection Hf as <-.
    apply list_elem_of_lookup. eauto.
  - assert (a <> []) as Ha.
    { intros ->. apply Forall2_nil_inv_r in E. by apply map_to_list_empty_iff in E. }
    apply tf_reduce_max_in in Ha. apply list_elem_of_lookup in Ha as [i Hi].
    destruct (Forall2_lookup_r _ _ _ _ _ E Hi) as ([k t] & Hkt & Hf).
    exists k, t. split.
    + apply elem_of_map_to_list. apply list_elem_of_lookup. eauto.
    + unfold num_frames_of in Hf. simpl in Hf. by apply of_option_ok in Hf.
Qed.

Section ParseTheory.
Context {decoder : Decoder}.

(** ** [parse_from_sequence_example]: the output *)

Lemma batch_max_shapes (examples examples' : gmap string Feature) L :
  (forall j, (tf_shape <$> examples' !! j) = (tf_shape <$> examples !! j)) ->
  batch_max examples' L -> batch_max examples L.
Proof.
  intros Hs [Hle (k & t & Hk & Ht)]. split.
  - intros j u n Hj Hn. specialize (Hs j). rewrite Hj in Hs.
    destruct (examples' !! j) as [u'|] eqn:Hj'; [|done].
    injection Hs as Hs. apply (Hle j u' n); [done|]. by rewrite Hs.
  - specialize (Hs k). rewrite Hk in Hs.
    destruct (examples !! k) as [u|] eqn:Hk'; [|done].
    injection Hs as Hs. exists k, u. split; [done|]. by rewrite <- Hs.
Qed.

(** The output of a run that returns, in terms of what the decoder gave. *)
Lemma parse_output s list_size ctx ex tr out context examples sizes :
  parse_from_sequence_example s list_size ctx ex = (tr, Ok out) ->
  parse_sequence_example s ctx (omap sequence_spec_of ex ∪ ex)
    = Ok (context, examples, sizes) ->
  (forall k, examples !! k = None -> out !! k = context !! k) /\
  (examples <> ∅ ->
   exists L,
     match effective_list_size list_size with
     | Some n => L = n
     | None => batch_max examples L
     end /\
     forall k t t', examples !! k = Some t -> out !! k = Some t' ->
       tf_shape t' !! 1%nat = Some L /\
       (is_dense t <-> is_dense t') /\
       (is_dense t' -> static_second t' = Some (effective_list_size list_size))).
Proof.
  unfold parse_from_sequence_example. rewrite collect_specs_spec.
  case_decide; [|done]. intros [= <- Hrun] Hdec. rewrite Hdec in Hrun.
  simpl in Hrun. bind_ok Hrun.
  pose proof (reset_paddings_shape _ _ _ _ E) as Hshape.
  destruct (normalize_all_spec _ _ _ _ _ _ _ Hrun) as [Hin Hout]. split.
  - intros k Hk. apply Hout. destruct (Hshape k) as [Hs _].
    rewrite Hk in Hs. by destruct (a !! k).
  - intros Hne. exists a0. split.
    + destruct (effective_list_size list_size) as [n|]; [by injection E0|].
      apply (batch_max_shapes examples a); [intros j; apply Hshape|].
      apply list_size_dynamic_max; [done|].
      intros ->. apply Hne. apply map_eq. intros j.
      destruct (Hshape j) as [Hs _]. rewrite lookup_empty in *.
      by destruct (examples !! j).
    + intros k t t' Hk Hk'. destruct (Hshape k) as [_ Hd]. rewrite Hk in Hd.
      destruct (a !! k) as [t1|] eqn:Hk1; [|done]. injection Hd as Hd.
      destruct (Hin _ _ Hk1) as (t2 & Hn & Hk2).
      rewrite Hk' in Hk2. injection Hk2 as <-.
      destruct (normalize_shape _ _ _ _ _ _ _ Hn) as (H1 & H2 & H3).
      split; [done|]. split; [|done]. by rewrite <- Hd.
Qed.

(** C1 (amended). For every batch [parse_from_sequence_example] returns,
    every per-position field of the output, dense or sparse, has the same
    second dimension [L]: the caller's [list_size] when it is a positive
    integer, otherwise the largest second dimension among the per-position
    fields the decoder returned; and every context field whose key is not
    also the key of a per-position field is in the output unchanged. *)
Theorem normalized_batch_shape s list_size ctx ex tr out context examples sizes :
  parse_from_sequence_example s list_size ctx ex = (tr, Ok out) ->
  parse_sequence_example s ctx (omap sequence_spec_of ex ∪ ex)
    = Ok (context, examples, sizes) ->
  (forall k, examples !! k = None -> out !! k = context !! k) /\
  (examples <> ∅ ->
   exists L,
     match list_size with
     | Some n => if (0 <? n)%Z then L = Z.to_nat n else batch_max examples L
     | None => batch_max examples L
     end /\
     forall k t', is_Some (examples !! k) -> out !! k = Some t' ->
       tf_shape t' !! 1%nat = Some L).
Proof.
  intros Hrun Hdec. destruct (parse_output _ _ _ _ _ _ _ _ _ Hrun Hdec) as [Hc He].
  split; [done|]. intros Hne. destruct (He Hne) as (L & HL & Hall).
  exists L. split.
  - unfold effective_list_size in HL. destruct list_size as [n|]; [|done].
    rewrite Z.leb_antisym in HL. by destruct (0 <? n)%Z.
  - intros k t' [t Hk] Hk'. by destruct (Hall _ _ _ Hk Hk').
Qed.

(** C10. A [list_size] that is given but not positive is the same call as
    one with no [list_size]: the target length is the largest second
    dimension of the batch, and the second dimension of every dense
    per-position field is statically unknown. *)
Theorem nonpositive_list_size_is_dynamic s n ctx ex :
  (n <= 0)%Z ->
  parse_from_sequence_example s (Some n) ctx ex
    = parse_from_sequence_example s None ctx ex /\
  forall tr out context examples sizes,
    parse_from_sequence_example s (Some n) ctx ex = (tr, Ok out) ->
    parse_sequence_example s ctx (omap sequence_spec_of ex ∪ ex)
      = Ok (context, examples, sizes) ->
    examples <> ∅ ->
    exists L, batch_max examples L /\
      forall k t', is_Some (examples !! k) -> out !! k = Some t' ->
        tf_shape t' !! 1%nat = Some L /\
        (is_dense t' -> static_second t' = Some None).
Proof.
  intros Hn.
  assert (effective_list_size (Some n) = None) as Heff.
  { unfold effective_list_size. by rewrite (proj2 (Z.leb_le n 0) Hn). }
  split.
  - unfold parse_from_sequence_example. by rewrite Heff.
  - intros tr out context examples sizes Hrun Hdec Hne.
    destruct (parse_output _ _ _ _ _ _ _ _ _ Hrun Hdec) as [_ He].
    destruct (He Hne) as (L & HL & Hall). rewrite Heff in *.
    exists L. split; [done|]. intros k t' [t Hk] Hk'.
    destruct (Hall _ _ _ Hk Hk') as (H1 & _ & H3). done.
Qed.

(** C4 (amended). For a Fixed-kind spec whose type is not string, the scalar
    default is: 0 for None, the number itself for an int or a float, the
    element for a one-element list or tuple, and for any other default a
    ValueError that [parse_from_sequence_example] raises before it calls the
    decoder. For a spec of type string nothing is raised: a default that
    Python holds true is returned as it is, any other gives the empty
    string. *)
Theorem default_error_before_decoding s list_size ctx ex k shp dt default_value :
  ex !! k = Some (FixedLenFeature shp dt default_value) ->
  dt <> DT_STRING ->
  match default_value with
  | PNone => _get_scalar_default_value dt default_value = Ok (PInt 0)
  | PInt _ | PFloat _ => _get_scalar_default_value dt default_value = Ok default_value
  | PList [x] | PTuple [x] => _get_scalar_default_value dt default_value = Ok x
  | _ =>
      _get_scalar_default_value dt default_value = Raise ValueError /\
      parse_from_sequence_example s list_size ctx ex = ([], Raise ValueError)
  end /\
  forall v, _get_scalar_default_value DT_STRING v
            = Ok (if truthy v then v else PStr "").
Proof.
  intros Hk Hdt. split; [|done].
  assert (_get_scalar_default_value dt default_value = Raise ValueError ->
          parse_from_sequence_example s list_size ctx ex = ([], Raise ValueError))
    as Hfail.
  { intros Hr. unfold parse_from_sequence_example. rewrite collect_specs_spec.
    rewrite decide_False; [done|]. intros Hall.
    specialize (Hall _ _ Hk). simpl in Hall. rewrite Hr in Hall.
    by destruct Hall. }
  unfold _get_scalar_default_value in *. rewrite decide_False in * by done.
  destruct default_value as [| | | | |[|? [|? ?]]|[|? [|? ?]]]; auto.
Qed.

(** C5 (amended). A field is in [padding_values] if and only if its spec is
    of Fixed kind and its scalar default is one Python holds true (not 0, not
    empty) and is not a text string; a Variable-kind field never is. *)
Theorem padding_values_registered ex fixed_len_sequence_features padding_values :
  collect_specs ex = Ok (fixed_len_sequence_features, padding_values) ->
  (forall k v,
     padding_values !! k = Some v <->
     exists shp dt default_value,
       ex !! k = Some (FixedLenFeature shp dt default_value) /\
       _get_scalar_default_value dt default_value = Ok v /\
       truthy v = true /\ is_text v = false) /\
  (forall k dt, ex !! k = Some (VarLenFeature dt) -> padding_values !! k = None).
Proof.
  rewrite collect_specs_spec. case_decide; [|done]. intros [= <- <-].
  assert (forall k v,
    omap padding_value_of ex !! k = Some v <->
    exists shp dt default_value,
      ex !! k = Some (FixedLenFeature shp dt default_value) /\
      _get_scalar_default_value dt default_value = Ok v /\
      truthy v = true /\ is_text v = false) as Hreg.
  { intros k v. rewrite lookup_omap. split.
    - destruct (ex !! k) as [[shp dt dv| |]|]; simpl; try done.
      destruct (_get_scalar_default_value dt dv) as [scalar|] eqn:Hs; [|done].
      destruct (non_trivial scalar) eqn:Hnt; [|done]. intros [= <-].
      rewrite non_trivial_spec in Hnt. apply andb_true_iff in Hnt as [Ht Hx].
      apply negb_true_iff in Hx. eauto 10.
    - intros (shp & dt & dv & -> & Hs & Ht & Hx). simpl. rewrite Hs.
      by rewrite non_trivial_spec, Ht, Hx. }
  split; [done|]. intros k dt Hk.
  destruct (omap padding_value_of ex !! k) as [v|] eqn:Hv; [|done].
  apply Hreg in Hv as (? & ? & ? & Hk' & _). congruence.
Qed.

End ParseTheory.

Section Chunks.
Context {A : Type}.
Implicit Types l row : list A.

(** ** Blocks of a row-major array *)

Lemma chunk_length (S i : nat) l :
  ((i + 1) * S <= length l)%nat -> length (chunk S i l) = S.
Proof. intros H. unfold chunk. rewrite length_take, length_drop. nia. Qed.

Lemma chunk_join (S : nat) (blocks : list (list A)) i blk :
  Forall (fun b => length b = S) blocks -> blocks !! i = Some blk ->
  chunk S i (mjoin blocks) = blk.
Proof.
  intros Hall. revert i. induction Hall as [|b0 blocks Hb0 _ IH]; intros i Hi; [done|].
  unfold chunk in *. destruct i as [|i]; simpl in *.
  - injection Hi as <-. by apply take_app_length'.
  - rewrite drop_app_add' by done. by apply IH.
Qed.

Lemma join_chunks_take (S n : nat) l :
  (n * S <= length l)%nat ->
  mjoin (map (fun i => chunk S i l) (seq 0 n)) = take (n * S) l.
Proof.
  induction n as [|n IH]; intros Hn; [done|].
  rewrite seq_S, map_app, join_app. simpl. rewrite app_nil_r.
  rewrite IH by lia. unfold chunk. rewrite take_take_drop. f_equal. lia.
Qed.

Lemma join_chunks (S n : nat) l :
  length l = (n * S)%nat -> mjoin (map (fun i => chunk S i l) (seq 0 n)) = l.
Proof. intros Hl. rewrite join_chunks_take by lia. apply take_ge. lia. Qed.

Lemma chunk_take (S n i : nat) l :
  (i < n)%nat -> chunk S i (take (n * S) l) = chunk S i l.
Proof.
  intros Hi. unfold chunk.
  replace (n * S)%nat with (i * S + (n * S - i * S))%nat by nia.
  rewrite <- take_drop_commute, take_take. f_equal. nia.
Qed.

Lemma chunk_chunk (S n b f : nat) l :
  (f < n)%nat -> chunk S f (chunk (n * S) b l) = chunk S (b * n + f) l.
Proof.
  intros Hf. unfold chunk at 2. rewrite chunk_take by done.
  unfold chunk. rewrite drop_drop. do 2 f_equal. nia.
Qed.

Lemma chunk_app_l (S i : nat) l k :
  ((i + 1) * S <= length l)%nat -> chunk S i (l ++ k) = chunk S i l.
Proof.
  intros Hi. unfold chunk. rewrite drop_app_le by nia.
  apply take_app_le. rewrite length_drop. nia.
Qed.

Lemma chunk_app_replicate (S n i p : nat) l c :
  length l = (n * S)%nat -> (n <= i < n + p)%nat ->
  chunk S i (l ++ replicate (p * S) c) = replicate S c.
Proof.
  intros Hl Hi. unfold chunk. rewrite drop_app_ge by nia.
  rewrite drop_replicate, take_replicate. f_equal. nia.
Qed.

Lemma map_seq_ext {B} (f g : nat -> B) (a n : nat) :
  (forall i, (a <= i < a + n)%nat -> f i = g i) -> map f (seq a n) = map g (seq a n).
Proof.
  intros H. apply map_ext_in. intros i Hi%in_seq. by apply H.
Qed.

Lemma lookup_map_seq {B} (f : nat -> B) (n i : nat) :
  (i < n)%nat -> map f (seq 0 n) !! i = Some (f i).
Proof.
  intros Hi. change (map f (seq 0 n)) with (f <$> seq 0 n).
  by rewrite list_lookup_fmap, lookup_seq_lt.
Qed.

Lemma Forall_map_seq {B} (P : B -> Prop) (f : nat -> B) (n : nat) :
  (forall i, (i < n)%nat -> P (f i)) -> Forall P (map f (seq 0 n)).
Proof.
  intros H. apply List.Forall_map, Forall_forall. intros i Hi%list_elem_of_In%in_seq.
  apply H. lia.
Qed.

(** A slice that takes every dimension whole is the array. *)
Lemma slice_data_full (shp : list nat) l :
  length l = prod_list shp ->
  slice_data shp (replicate (length shp) 0%nat) shp l = l.
Proof.
  revert l. induction shp as [|d shp IH]; intros l Hl; [done|].
  simpl in *. rewrite (map_seq_ext _ (fun i => chunk (prod_list shp) i l)).
  - by apply join_chunks.
  - intros i Hi. apply IH. apply chunk_length. nia.
Qed.

Lemma padded_shape_zero (shp : list nat) :
  padded_shape shp (replicate (length shp) (0, 0)%nat) = shp.
Proof.
  unfold padded_shape. induction shp as [|d shp IH]; [done|].
  simpl. f_equal; [lia|done].
Qed.

(** Padding by nothing in every dimension is the array. *)
Lemma pad_data_zero (shp : list nat) c l :
  length l = prod_list shp ->
  pad_data shp (replicate (length shp) (0, 0)%nat) c l = l.
Proof.
  revert l. induction shp as [|d shp IH]; intros l Hl; [done|].
  simpl in *. rewrite app_nil_r.
  rewrite (map_seq_ext _ (fun i => chunk (prod_list shp) i l)).
  - by apply join_chunks.
  - intros i Hi. apply IH. apply chunk_length. nia.
Qed.

(** One row of [F] frames cut to its first [L] frames. *)
Lemma slice_row (inner : list nat) (F L : nat) row :
  length row = (F * prod_list inner)%nat -> (L <= F)%nat ->
  slice_data (F :: inner) (0%nat :: replicate (length inner) 0%nat) (L :: inner) row
  = take (L * prod_list inner) row.
Proof.
  intros Hrow HL. simpl.
  rewrite (map_seq_ext _ (fun i => chunk (prod_list inner) i row)).
  - apply join_chunks_take. nia.
  - intros i Hi. apply slice_data_full. apply chunk_length. nia.
Qed.

(** One row of [F] frames padded with [p] frames of [c]. *)
Lemma pad_row (inner : list nat) (F p : nat) c row :
  length row = (F * prod_list inner)%nat ->
  pad_data (F :: inner) ((0, p)%nat :: replicate (length inner) (0, 0)%nat) c row
  = row ++ replicate (p * prod_list inner) c.
Proof.
  intros Hrow. simpl. rewrite padded_shape_zero. f_equal.
  rewrite (map_seq_ext _ (fun i => chunk (prod_list inner) i row)).
  - by apply join_chunks.
  - intros i Hi. apply pad_data_zero. apply chunk_length. nia.
Qed.

End Chunks.

(** ** Dense features: the frames after truncation and padding *)

Lemma slice_data_cons {A} (shp begin size : list nat) (d b s : nat) (l : list A) :
  slice_data (d :: shp) (b :: begin) (s :: size) l =
  mjoin (map (fun i => slice_data shp begin size (chunk (prod_list shp) i l)) (seq b s)).
Proof. done. Qed.

Lemma pad_data_outer {A} (shp : list nat) (paddings : list (nat * nat)) (d : nat)
    (c : A) (l : list A) :
  pad_data (d :: shp) ((0, 0)%nat :: paddings) c l =
  mjoin (map (fun i => pad_data shp paddings c (chunk (prod_list shp) i l)) (seq 0 d)).
Proof. simpl. by rewrite app_nil_r. Qed.

Lemma tf_slice_frames {A} (a : ndarray A) (B F L : nat) (inner : list nat) :
  shape a = B :: F :: inner -> wf_ndarray a -> (L <= F)%nat ->
  exists r,
    tf_slice a (replicate (2 + length inner) 0%nat) (B :: L :: inner) = Ok r /\
    shape r = B :: L :: inner /\
    forall b f, (b < B)%nat -> (f < L)%nat -> frame r b f = frame a b f.
Proof.
  intros Hshp Hwf HL. unfold wf_ndarray in Hwf. rewrite Hshp in Hwf. simpl in Hwf.
  set (S := prod_list inner) in *.
  eexists. unfold tf_slice. rewrite Hshp. rewrite decide_True; cycle 1.
  { unfold slice_ok. simpl. rewrite length_replicate. split; [done|]. split; [done|].
    constructor; [simpl; lia|]. constructor; [simpl; lia|].
    clear. induction inner as [|d inner IH]; simpl; constructor; [simpl; lia|done]. }
  split; [done|]. split; [done|]. intros b f Hb Hf.
  unfold frame. rewrite Hshp. cbn [shape data]. fold S.
  cbn [replicate Nat.add]. rewrite slice_data_cons.
  change (prod_list (F :: inner)) with (F * S)%nat.
  rewrite (map_seq_ext _ (fun i => take (L * S) (chunk (F * S) i (data a)))); cycle 1.
  { intros i Hi. apply (slice_row inner F L); [|done].
    apply chunk_length. nia. }
  rewrite <- (chunk_chunk S L b f) by done.
  rewrite (chunk_join (L * S) _ b (take (L * S) (chunk (F * S) b (data a)))).
  - rewrite chunk_take by done. apply chunk_chunk. lia.
  - apply Forall_map_seq. intros i Hi. rewrite length_take, chunk_length; nia.
  - by apply (lookup_map_seq (fun i => take (L * S) (chunk (F * S) i (data a)))).
Qed.

Lemma tf_pad_frames {A} (a : ndarray A) (B F p : nat) (inner : list nat) (c : A) :
  shape a = B :: F :: inner -> wf_ndarray a ->
  exists r,
    tf_pad a ((0, 0)%nat :: (0, p)%nat :: replicate (length inner) (0, 0)%nat) c = Ok r /\
    shape r = B :: (F + p)%nat :: inner /\
    forall b f, (b < B)%nat -> (f < F + p)%nat ->
      frame r b f = if decide (f < F)%nat then frame a b f
                    else replicate (prod_list inner) c.
Proof.
  intros Hshp Hwf. unfold wf_ndarray in Hwf. rewrite Hshp in Hwf. simpl in Hwf.
  set (S := prod_list inner) in *.
  eexists. unfold tf_pad. rewrite Hshp. rewrite decide_True; cycle 1.
  { simpl. by rewrite length_replicate. }
  assert (padded_shape (B :: F :: inner)
            ((0, 0)%nat :: (0, p)%nat :: replicate (length inner) (0, 0)%nat)
          = B :: (F + p)%nat :: inner) as Hps.
  { pose proof (padded_shape_zero inner) as Hz. unfold padded_shape in *.
    simpl. rewrite Hz. repeat f_equal; lia. }
  split; [done|]. rewrite Hps. split; [done|]. intros b f Hb Hf.
  unfold frame. cbn [shape data]. rewrite Hshp. fold S.
  rewrite pad_data_outer.
  change (prod_list (F :: inner)) with (F * S)%nat.
  rewrite (map_seq_ext _
    (fun i => chunk (F * S) i (data a) ++ replicate (p * S) c)); cycle 1.
  { intros i Hi. apply (pad_row inner F p). apply chunk_length. nia. }
  rewrite <- (chunk_chunk S (F + p) b f) by done.
  rewrite (chunk_join ((F + p) * S) _ b
             (chunk (F * S) b (data a) ++ replicate (p * S) c)).
  - assert (length (chunk (F * S) b (data a)) = (F * S)%nat) as Hrow
      by (apply chunk_length; nia).
    case_decide.
    + rewrite chunk_app_l by nia. apply chunk_chunk. lia.
    + apply (chunk_app_replicate S F); [done|lia].
  - apply Forall_map_seq. intros i Hi.
    rewrite length_app, length_replicate, chunk_length; nia.
  - by apply (lookup_map_seq
                (fun i => chunk (F * S) i (data a) ++ replicate (p * S) c)).
Qed.

Lemma padding_value_lookup (spec : gmap string FeatureSpec) fixed pv k shp dt dv pad_val :
  collect_specs spec = Ok (fixed, pv) ->
  spec !! k = Some (FixedLenFeature shp dt dv) ->
  _get_scalar_default_value dt dv = Ok pad_val ->
  pv !! k = if non_trivial pad_val then Some pad_val else None.
Proof.
  rewrite collect_specs_spec. case_decide; [|done]. intros [= <- <-] Hk Hs.
  rewrite lookup_omap, Hk. simpl. by rewrite Hs.
Qed.

(** C2 (amended). A dense per-position field of [F] positions, normalised to
    the target length [L]: the result has [L] positions; every position
    before [F] (all of them when [F] exceeds [L]) holds the frame it held,
    and every position from [F] on holds the field's scalar default
    ([_get_scalar_default_value] of its spec) in every cell. That default is
    the registered one when the field is in [padding_values]; when it is not,
    it is a value Python holds false (0, empty) or a text string, which then
    is the pad value as declared. *)
Theorem dense_truncate_or_pad gm spec L La k (d : Tensor) (B F : nat)
    (inner : list nat) shp dt dv pad_val c :
  shape (value d) = B :: F :: inner ->
  wf_ndarray (value d) ->
  length (static_shape d) = length (shape (value d)) ->
  spec !! k = Some (FixedLenFeature shp dt dv) ->
  _get_scalar_default_value dt dv = Ok pad_val ->
  constant_of (t_dtype d) pad_val = Ok c ->
  (exists r,
     normalize gm spec L La k (Dense d) = Ok (Dense r) /\
     shape (value r) = B :: L :: inner /\
     forall b f, (b < B)%nat -> (f < L)%nat ->
       frame (value r) b f =
       if decide (f < F)%nat then frame (value d) b f
       else replicate (prod_list inner) c) /\
  (forall fixed pv, collect_specs spec = Ok (fixed, pv) ->
     match pv !! k with
     | Some v => pad_val = v
     | None => truthy pad_val = false \/ is_text pad_val = true
     end).
Proof.
  intros Hshp Hwf Hrank Hk Hget Hc. split; cycle 1.
  { intros fixed pv Hcs.
    rewrite (padding_value_lookup _ _ _ _ _ _ _ _ Hcs Hk Hget).
    rewrite non_trivial_spec.
    destruct (truthy pad_val), (is_text pad_val); simpl; auto. }
  assert (pad_value spec k (t_dtype d) = Ok c) as Hpad.
  { unfold pad_value. rewrite Hk. simpl. rewrite Hget. simpl. done. }
  unfold normalize, num_frames_of. cbn [tf_shape rank_of].
  rewrite Hshp, Hrank, Hshp. cbn [lookup list_lookup of_option mbind result_bind].
  rewrite Hpad.
  assert (forall (r : result Feature),
            (if gm then Ok c else Ok (ENum 0)) ≫= (fun _ : elem => r) = r) as ->
    by (by destruct gm).
  cbn [mbind result_bind app drop length]. rewrite drop_0.
  assert (set_second (static_shape d) La = Ok (<[1%nat := La]> (static_shape d))) as Hset.
  { unfold set_second. rewrite decide_True; [done|]. rewrite Hrank, Hshp. simpl. lia. }
  destruct (decide (L < F)%nat) as [Hlt|Hge].
  - destruct (tf_slice_frames (value d) B F L inner Hshp Hwf) as (r & Hr & Hs & Hfr);
      [lia|].
    unfold truncate_fn. cbn [Nat.add] in Hr. rewrite Hr.
    cbn [mbind result_bind static_shape]. rewrite Hset.
    cbn [mbind result_bind]. eexists. split; [done|]. split; [done|].
    intros b f Hb Hf. cbn [value]. rewrite Hfr by done.
    rewrite decide_True by lia. done.
  - destruct (tf_pad_frames (value d) B F (L - F) inner c Hshp Hwf)
      as (r & Hr & Hs & Hfr).
    unfold pad_fn. rewrite Hpad. cbn [mbind result_bind].
    cbn [app Nat.sub]. rewrite Nat.sub_0_r. rewrite Hr.
    cbn [mbind result_bind static_shape]. rewrite Hset.
    cbn [mbind result_bind]. eexists. split; [done|]. split.
    { cbn [value]. rewrite Hs. do 2 f_equal. lia. }
    intros b f Hb Hf. cbn [value]. apply Hfr; [done|lia].
Qed.

(** ** Sparse features: the entries after truncation and padding *)

Lemma filter_ext_in {A} (P Q : A -> Prop) `{!forall x, Decision (P x)}
    `{!forall x, Decision (Q x)} (l : list A) :
  (forall x, x ∈ l -> P x <-> Q x) -> filter P l = filter Q l.
Proof.
  induction l as [|x l IH]; intros Hext; [done|].
  rewrite !filter_cons. rewrite IH by (intros y Hy; apply Hext; by right).
  pose proof (Hext x ltac:(by left)) as Hx.
  destruct (decide (P x)), (decide (Q x)); tauto.
Qed.

Lemma zip_with_sub_zero (idx : list nat) n :
  (length idx <= n)%nat -> zip_with Nat.sub idx (replicate n 0%nat) = idx.
Proof.
  revert n. induction idx as [|i idx IH]; intros n Hn; [done|].
  destruct n as [|n]; simpl in *; [lia|]. rewrite IH by lia. f_equal. lia.
Qed.

Lemma window_whole (irest rest : list nat) :
  Forall2 lt irest rest ->
  Forall2 (fun i (bs : nat * nat) => (bs.1 <= i < bs.1 + bs.2)%nat)
          irest (zip (replicate (length rest) 0%nat) rest).
Proof. induction 1; simpl; constructor; [simpl; lia|done]. Qed.

Lemma in_window_position (B F L : nat) (rest idx : list nat) :
  Forall2 lt idx (B :: F :: rest) ->
  in_window (replicate (S (S (length rest))) 0%nat) (B :: L :: rest) idx
  <-> (position_of idx < L)%nat.
Proof.
  intros Hwf. inversion Hwf as [|i0 ? irest0 ? H0 Hwf']; subst.
  inversion Hwf' as [|i1 ? irest ? H1 Hrest]; subst.
  unfold in_window, position_of. simpl. rewrite bool_decide_spec. split.
  - intros Hw. inversion Hw as [|???? _ Hw']; subst.
    inversion Hw' as [|???? Hi _]; subst. simpl in Hi. lia.
  - intros Hi. constructor; [simpl; lia|]. constructor; [simpl; lia|].
    by apply window_whole.
Qed.

Lemma sliced_bounds (rest : list nat) :
  zip_with (fun d (bs : nat * nat) => Nat.min bs.2 (d - bs.1)) rest
           (zip (replicate (length rest) 0%nat) rest) = rest.
Proof. induction rest as [|r rest IH]; simpl; [done|]. rewrite IH. f_equal. lia. Qed.

Lemma zip_fst_snd_map {A B} (l : list (A * B)) : zip (map fst l) (map snd l) = l.
Proof. induction l as [|[a b] l IH]; simpl; [done|]. by rewrite IH. Qed.

(** C6. A sparse per-position field of bound [F] on the position axis,
    normalised to the target length [L]. When [F] exceeds [L] (truncation)
    the entries kept are exactly those whose position index is below [L], so
    every entry at position [L] or later is removed, and the bound becomes
    [L]. Otherwise (padding) the entries are the same and only the bound
    becomes [L]. *)
Theorem sparse_truncate_or_pad gm spec L La k (t : SparseTensor) (B F : nat)
    (rest : list nat) :
  dense_shape t = B :: F :: rest ->
  wf_sparse t ->
  exists r,
    normalize gm spec L La k (Sparse t) = Ok (Sparse r) /\
    dense_shape r = B :: L :: rest /\
    if decide (L < F)%nat then
      zip (indices r) (values r) =
        filter (fun e : list nat * elem => (position_of e.1 < L)%nat)
               (zip (indices t) (values t)) /\
      Forall (fun idx => (position_of idx < L)%nat) (indices r)
    else
      indices r = indices t /\ values r = values t.
Proof.
  intros Hshp [Hlen Hwf].
  unfold normalize, num_frames_of. cbn [tf_shape rank_of].
  rewrite Hshp. cbn [lookup list_lookup of_option mbind result_bind app drop length].
  rewrite drop_0. destruct (decide (L < F)%nat) as [Hlt|Hge].
  - unfold truncate_fn, tf_sparse_slice. rewrite Hshp.
    rewrite decide_True by (simpl; by rewrite length_replicate).
    cbn [fmap result_fmap mbind result_bind]. eexists. split; [done|].
    cbn [dense_shape indices values].
    assert (filter (fun e : list nat * elem =>
                      in_window (replicate (S (S (length rest))) 0%nat) (B :: L :: rest) e.1)
                   (zip (indices t) (values t))
            = filter (fun e : list nat * elem => (position_of e.1 < L)%nat)
                     (zip (indices t) (values t))) as Hfilter.
    { apply filter_ext_in. intros [idx v] Hin. simpl.
      apply (in_window_position B F L rest). rewrite <- Hshp.
      rewrite Forall_forall in Hwf. apply Hwf.
      apply elem_of_zip_l in Hin. done. }
    rewrite Hfilter.
    set (kept := filter _ (zip (indices t) (values t))).
    assert (map (fun e : list nat * elem =>
                   zip_with Nat.sub e.1 (replicate (S (S (length rest))) 0%nat)) kept
            = map fst kept) as Hidx.
    { apply map_ext_in. intros [idx v] Hin%list_elem_of_In. simpl.
      apply (zip_with_sub_zero idx (S (S (length rest)))).
      apply list_elem_of_filter in Hin as [_ Hin]. apply elem_of_zip_l in Hin.
      rewrite Forall_forall in Hwf. specialize (Hwf _ Hin).
      apply Forall2_length in Hwf. rewrite Hwf, Hshp. simpl. lia. }
    rewrite Hidx. split.
    { simpl. rewrite sliced_bounds. f_equal; [lia|]. f_equal. lia. }
    split; [apply zip_fst_snd_map|].
    apply List.Forall_map, Forall_forall. intros [idx v] Hin.
    by apply list_elem_of_filter in Hin as [Hp _].
  - unfold pad_fn, tf_sparse_reset_shape. rewrite Hshp.
    rewrite decide_True by done. rewrite decide_True; cycle 1.
    { constructor; [done|]. constructor; [lia|]. clear. by induction rest; constructor. }
    cbn [fmap result_fmap mbind result_bind]. eexists. split; [done|]. done.
Qed.

(** ** The padding reset on a feature wider than one value *)

Lemma length_join_replicate {A} (n : nat) (l : list A) :
  length (mjoin (replicate n l)) = (n * length l)%nat.
Proof. induction n as [|n IH]; simpl; [done|]. rewrite length_app, IH. done. Qed.

(** [rank] is built from [batch * positions] numbers and reshaped to the
    shape of the tensor: for a feature of width other than 1 (on a batch with
    a position at all) the reshape fails. *)
Lemma reset_padding_wide sizes k v (examples : gmap string Feature) tensor
    (B F W : nat) sz :
  examples !! k = Some (Dense tensor) ->
  length (static_shape tensor) = 3%nat ->
  shape (value tensor) = [B; F; W] ->
  sizes !! k = Some sz ->
  W <> 1%nat -> (B * F)%nat <> 0%nat ->
  reset_padding sizes k v (Ok examples) = Raise InvalidArgumentError.
Proof.
  intros Hk Hrank Hshp Hsz HW HBF. unfold reset_padding.
  cbn [mbind result_bind]. rewrite Hk. cbn [of_option mbind result_bind].
  rewrite decide_True by done. rewrite Hsz, Hshp.
  cbn [of_option mbind result_bind lookup list_lookup].
  unfold tf_tile, tf_range. cbn [shape data mbind result_bind].
  unfold tf_reshape. cbn [data]. rewrite decide_False; [done|].
  rewrite length_join_replicate, length_map, length_seq. simpl. nia.
Qed.

(** ** The padding reset on a feature of one value per position *)

Lemma chunk_one {A} (i : nat) (l : list A) :
  chunk 1 i l = match l !! i with Some x => [x] | None => [] end.
Proof.
  unfold chunk. rewrite Nat.mul_1_r.
  rewrite <- (Nat.add_0_r i) at 2. rewrite <- lookup_drop.
  by destruct (drop i l).
Qed.

Lemma broadcast_data_same {A} (shp : list nat) (l : list A) :
  length l = prod_list shp -> broadcast_data shp shp l = l.
Proof.
  revert l. induction shp as [|d shp IH]; intros l Hl; [done|].
  simpl in *. rewrite decide_True by done.
  rewrite (map_seq_ext _ (fun i => chunk (prod_list shp) i l)).
  - by apply join_chunks.
  - intros i Hi. apply IH. apply chunk_length. nia.
Qed.

Lemma join_replicate_singleton {A} (n : nat) (x : A) :
  mjoin (replicate n [x]) = replicate n x.
Proof. induction n as [|n IH]; simpl; [done|]. by rewrite IH. Qed.

(** One true length, repeated along the positions. *)
Lemma broadcast_size {A} (F : nat) (x : A) :
  broadcast_data [1; 1]%nat [F; 1]%nat [x] = replicate F x.
Proof.
  simpl. destruct (decide (1 = F)%nat) as [<-|_]; [done|].
  apply join_replicate_singleton.
Qed.

Lemma broadcast_sizes {A} (B F : nat) (l : list A) :
  length l = B ->
  broadcast_data [B; 1; 1]%nat [B; F; 1]%nat l =
  mjoin (map (fun b => match l !! b with
                       | Some x => replicate F x
                       | None => []
                       end) (seq 0 B)).
Proof.
  intros Hl. cbn [broadcast_data]. rewrite decide_True by done.
  f_equal. apply map_seq_ext. intros b Hb.
  change (prod_list [1%nat; 1%nat]) with 1%nat. rewrite chunk_one.
  destruct (lookup_lt_is_Some_2 l b) as [x Hx]; [lia|].
  rewrite Hx. apply (broadcast_size F x).
Qed.

Lemma lookup_tiled_range (B F b f : nat) :
  (b < B)%nat -> (f < F)%nat ->
  mjoin (replicate B (map Z.of_nat (seq 0 F))) !! (b * F + f)%nat = Some (Z.of_nat f).
Proof.
  intros Hb Hf. apply (join_lookup_Some_same_length' F); [|done|].
  - apply Forall_replicate. by rewrite length_map, length_seq.
  - eexists. split; [by apply lookup_replicate_2|].
    by apply (lookup_map_seq Z.of_nat).
Qed.

Lemma lookup_broadcast_sizes {A} (B F b f : nat) (l : list A) x :
  length l = B -> (f < F)%nat -> l !! b = Some x ->
  broadcast_data [B; 1; 1]%nat [B; F; 1]%nat l !! (b * F + f)%nat = Some x.
Proof.
  intros Hl Hf Hx. rewrite broadcast_sizes by done.
  assert (b < B)%nat as Hb by (rewrite <- Hl; by eapply lookup_lt_Some).
  apply (join_lookup_Some_same_length' F); [|done|].
  - apply Forall_map_seq. intros i Hi.
    destruct (lookup_lt_is_Some_2 l i) as [y Hy]; [lia|].
    by rewrite Hy, length_replicate.
  - eexists. split.
    + by apply (lookup_map_seq
        (fun b => match l !! b with Some x => replicate F x | None => [] end)).
    + rewrite Hx. by apply lookup_replicate_2.
Qed.

Lemma Qmult_one (q : Q) : (q * 1)%Q = q.
Proof.
  destruct q as [n d]. unfold Qmult. simpl.
  by rewrite Z.mul_1_r, Pos.mul_1_r.
Qed.

Lemma scalar_times_ones_constant v (t : Tensor) q :
  constant_of (t_dtype t) v = Ok (ENum q) ->
  scalar_times_ones v t =
  Ok (NdArray (shape (value t)) (map (fun _ => ENum q) (data (value t)))).
Proof.
  unfold constant_of, scalar_times_ones.
  destruct v, (t_dtype t); intros [= <-]; by rewrite ?Qmult_one.
Qed.

(** The padding reset, for a registered field of width 1 with a numeric
    default [q]: in every row, the positions before the true length keep
    what the decoder gave and the positions from the true length on hold
    [q]. *)
Theorem reset_padding_width_one sizes k v (examples : gmap string Feature) tensor
    (B F : nat) (sz : ndarray Z) (q : Q) :
  examples !! k = Some (Dense tensor) ->
  length (static_shape tensor) = 3%nat ->
  shape (value tensor) = [B; F; 1]%nat ->
  wf_ndarray (value tensor) ->
  sizes !! k = Some sz ->
  length (data sz) = B ->
  constant_of (t_dtype tensor) v = Ok (ENum q) ->
  exists new,
    reset_padding sizes k v (Ok examples) =
      Ok (<[k := Dense (MkTensor (t_dtype tensor) (static_shape tensor) new)]> examples) /\
    shape new = [B; F; 1]%nat /\
    forall b f n, (b < B)%nat -> (f < F)%nat -> data sz !! b = Some n ->
      frame new b f = if (Z.of_nat f <? n)%Z then frame (value tensor) b f
                      else [ENum q].
Proof.
  intros Hk Hrank Hshp Hwf Hsz Hlen Hc.
  unfold wf_ndarray in Hwf. rewrite Hshp in Hwf. simpl in Hwf.
  unfold reset_padding. cbn [mbind result_bind]. rewrite Hk.
  cbn [of_option mbind result_bind]. rewrite decide_True by done.
  rewrite Hsz, Hshp. cbn [of_option mbind result_bind lookup list_lookup].
  unfold tf_tile, tf_range. cbn [shape data mbind result_bind].
  unfold tf_reshape. cbn [data]. rewrite decide_True; cycle 1.
  { rewrite length_join_replicate, length_map, length_seq. simpl. lia. }
  cbn [mbind result_bind]. unfold tf_less, tf_reshape_column.
  cbn [shape data]. rewrite Hlen.
  assert (broadcast_shape [B; F; 1]%nat [B; 1; 1]%nat = Some [B; F; 1]%nat) as ->.
  { simpl. destruct (decide (F = 1%nat)) as [->|HF]; simpl;
      by rewrite decide_True. }
  cbn [of_option mbind result_bind].
  rewrite (scalar_times_ones_constant v tensor q) by done. cbn [mbind result_bind].
  unfold tf_where. cbn [shape data]. rewrite Hshp.
  rewrite decide_True by done. cbn [mbind result_bind].
  eexists. split; [done|]. split; [done|].
  intros b f n Hb Hf Hn. unfold frame. rewrite Hshp. cbn [shape data].
  change (prod_list [1%nat]) with 1%nat. rewrite !chunk_one.
  rewrite lookup_zip_with, lookup_zip_with, lookup_zip_with.
  rewrite broadcast_data_same; cycle 1.
  { rewrite length_join_replicate, length_map, length_seq. simpl. lia. }
  rewrite lookup_tiled_range by done.
  rewrite (lookup_broadcast_sizes B F b f (data sz) n) by done.
  destruct (lookup_lt_is_Some_2 (data (value tensor)) (b * F + f)) as [x Hx]; [nia|].
  rewrite Hx. change (map ?g ?l) with (g <$> l).
  rewrite list_lookup_fmap, Hx. simpl.
  by destruct (Z.of_nat f <? n)%Z.
Qed.

(** Normalising a dense field that already has the target length changes
    no value: the pad branch runs and adds no position. *)
Theorem normalize_same_length gm spec La k (d : Tensor) (B F : nat) (inner : list nat)
    shp dt dv pad_val c :
  shape (value d) = B :: F :: inner ->
  wf_ndarray (value d) ->
  length (static_shape d) = length (shape (value d)) ->
  spec !! k = Some (FixedLenFeature shp dt dv) ->
  _get_scalar_default_value dt dv = Ok pad_val ->
  constant_of (t_dtype d) pad_val = Ok c ->
  normalize gm spec F La k (Dense d) =
    Ok (Dense (MkTensor (t_dtype d) (<[1%nat := La]> (static_shape d))
                        (NdArray (shape (value d)) (data (value d))))).
Proof.
  intros Hshp Hwf Hrank Hk Hget Hc.
  assert (pad_value spec k (t_dtype d) = Ok c) as Hpad.
  { unfold pad_value. rewrite Hk. simpl. rewrite Hget. simpl. done. }
  unfold normalize, num_frames_of. cbn [tf_shape rank_of].
  rewrite Hshp, Hrank, Hshp. cbn [lookup list_lookup of_option mbind result_bind].
  rewrite Hpad.
  assert (forall (r : result Feature),
            (if gm then Ok c else Ok (ENum 0)) ≫= (fun _ : elem => r) = r) as ->
    by (by destruct gm).
  cbn [mbind result_bind app drop length]. rewrite drop_0.
  rewrite decide_False by lia. unfold pad_fn. rewrite Hpad.
  cbn [mbind result_bind app Nat.sub]. rewrite Nat.sub_0_r, Nat.sub_diag.
  change ((0, 0)%nat :: (0, 0)%nat :: replicate (length inner) (0, 0)%nat)
    with (replicate (length (B :: F :: inner)) (0, 0)%nat).
  unfold tf_pad. rewrite Hshp, decide_True by (by rewrite length_replicate).
  rewrite padded_shape_zero, pad_data_zero by (by rewrite <- Hshp).
  cbn [mbind result_bind static_shape]. unfold set_second.
  rewrite decide_True by (rewrite Hrank, Hshp; simpl; lia). done.
Qed.

(** ** The parser: further properties *)

Section ParseFurther.
Context {decoder : Decoder}.

Lemma reset_padding_local sizes k v (m m' out : gmap string Feature) :
  m' !! k = m !! k ->
  reset_padding sizes k v (Ok m) = Ok out ->
  exists t', out = <[k := t']> m /\
             reset_padding sizes k v (Ok m') = Ok (<[k := t']> m').
Proof.
  unfold reset_padding. cbn [mbind result_bind]. intros Hk Hr. rewrite Hk.
  destruct (m !! k) as [[tensor|st]|]; simpl in *; try discriminate.
  case_decide; [|discriminate]. bind_ok Hr. injection Hr as <-.
  repeat (cbn [mbind result_bind];
          match goal with E : ?r = Ok _ |- context [?r] => rewrite E end).
  cbn [mbind result_bind]. eexists. split; reflexivity.
Qed.

Lemma reset_paddings_lookup (pv : gmap string pyval) sizes
    (examples out : gmap string Feature) :
  reset_paddings pv examples sizes = Ok out ->
  forall j,
    match pv !! j with
    | None => out !! j = examples !! j
    | Some v => exists t', reset_padding sizes j v (Ok examples) = Ok (<[j := t']> examples) /\
                           out !! j = Some t'
    end.
Proof.
  unfold reset_paddings. revert out.
  induction pv as [|k v m Hk Hfirst IH] using map_first_key_ind; intros out.
  - rewrite map_fold_empty. intros [= <-] j. by rewrite lookup_empty.
  - rewrite map_fold_insert_first_key by done.
    destruct (map_fold (reset_padding sizes) (Ok examples) m) as [ex1|e] eqn:Hm; [|done].
    intros Hr j. specialize (IH ex1 eq_refl).
    assert (ex1 !! k = examples !! k) as Hsame.
    { specialize (IH k). by rewrite Hk in IH. }
    destruct (reset_padding_local sizes k v ex1 examples out) as (t' & -> & Hloc);
      [done|done|].
    destruct (decide (k = j)) as [<-|Hne].
    + rewrite lookup_insert_eq. exists t'. by rewrite lookup_insert_eq.
    + rewrite !lookup_insert_ne by done. apply IH.
Qed.


Lemma broadcast_shape_column (s1 : list nat) (n : nat) s :
  broadcast_shape s1 [n; 1; 1]%nat = Some s ->
  exists B F W, s1 = [B; F; W]%nat /\
    s = [if decide (B = n) then B else if decide (B = 1%nat) then n else B; F; W]%nat /\
    (B = n \/ B = 1%nat \/ n = 1%nat).
Proof.
  destruct s1 as [|B [|F [|W [|? ?]]]]; simpl; try done.
  intros Hs. exists B, F, W.
  repeat (match type of Hs with
          | context [decide ?P] => destruct (decide P); simpl in Hs
          end); simplify_eq;
    (split; [done|]); (split; [by repeat case_decide|]); auto.
Qed.

Lemma scalar_times_ones_inv v (t : Tensor) ones :
  scalar_times_ones v t = Ok ones ->
  exists q, constant_of (t_dtype t) v = Ok (ENum q).
Proof.
  unfold scalar_times_ones, constant_of.
  destruct v, (t_dtype t); try done; eauto.
Qed.

Lemma reset_padding_inv sizes k v (m out : gmap string Feature) :
  reset_padding sizes k v (Ok m) = Ok out ->
  exists tensor new, out = <[k := Dense (MkTensor (t_dtype tensor) (static_shape tensor) new)]> m /\
    shape new = shape (value tensor) /\ resettable m sizes k v tensor.
Proof.
  unfold reset_padding. cbn [mbind result_bind]. intros Hr. bind_ok Hr.
  destruct a as [tensor|?]; [|done]. case_decide as Hrank; [|done]. bind_ok Hr.
  injection Hr as <-. apply of_option_ok in E, E0, E1, E2.
  unfold tf_reshape in E3. case_decide as Hprod; [|done]. injection E3 as <-.
  cbn [data] in Hprod.
  rewrite length_join_replicate, length_map, length_seq in Hprod.
  unfold tf_less in E4. bind_ok E4. injection E4 as <-. apply of_option_ok in E3.
  cbn [shape tf_reshape_column] in E3.
  apply broadcast_shape_column in E3 as (B & F & W & Hshp & -> & Hbatch).
  unfold tf_where in E6. case_decide as Hw; [|done]. injection E6 as <-.
  cbn [shape] in Hw. destruct Hw as [Hcond Hones].
  destruct (scalar_times_ones_inv _ _ _ E5) as [q Hq].
  eexists tensor, _. split; [done|]. split; [done|].
  rewrite Hshp in E1, E2, Hprod, Hcond. simpl in E1, E2, Hprod.
  injection E1 as <-. injection E2 as <-. injection Hcond as Hcond.
  exists a, q, B, F, W. repeat split; try done.
  - destruct (decide (W = 1%nat)) as [->|HW]; [by left|right]. nia.
  - repeat case_decide; auto. destruct Hbatch as [?|[?|?]]; auto; congruence.
Qed.

Lemma reset_padding_ok sizes k v (m : gmap string Feature) tensor :
  resettable m sizes k v tensor ->
  exists new,
    reset_padding sizes k v (Ok m) =
      Ok (<[k := Dense (MkTensor (t_dtype tensor) (static_shape tensor) new)]> m) /\
    shape new = shape (value tensor).
Proof.
  intros (sz & q & B & F & W & Hk & Hrank & Hshp & HW & Hsz & Hlen & Hc).
  unfold reset_padding. cbn [mbind result_bind]. rewrite Hk.
  cbn [of_option mbind result_bind]. rewrite decide_True by done.
  rewrite Hsz, Hshp. cbn [of_option mbind result_bind lookup list_lookup].
  unfold tf_tile, tf_range. cbn [shape data mbind result_bind].
  unfold tf_reshape. cbn [data]. rewrite decide_True; cycle 1.
  { rewrite length_join_replicate, length_map, length_seq. simpl.
    destruct HW as [->|HW]; nia. }
  cbn [mbind result_bind]. unfold tf_less, tf_reshape_column. cbn [shape data].
  assert (broadcast_shape [B; F; W]%nat [length (data sz); 1; 1]%nat
          = Some [B; F; W]%nat) as ->.
  { simpl. repeat (case_decide; simpl); try done; destruct Hlen; congruence. }
  cbn [of_option mbind result_bind].
  rewrite (scalar_times_ones_constant v tensor q) by done. cbn [mbind result_bind].
  unfold tf_where. cbn [shape data]. rewrite Hshp.
  rewrite decide_True by done. cbn [mbind result_bind].
  eexists. split; reflexivity.
Qed.

Lemma reset_paddings_ok (pv : gmap string pyval) sizes (examples : gmap string Feature) :
  (forall k v, pv !! k = Some v -> exists tensor, resettable examples sizes k v tensor) ->
  is_ok (reset_paddings pv examples sizes).
Proof.
  induction pv as [|k v m Hk Hfirst IH] using map_first_key_ind.
  - intros _. unfold reset_paddings. rewrite map_fold_empty. by eexists.
  - intros Hall. destruct IH as [ex1 Hex1].
    { intros k' v' Hk'. apply Hall. rewrite lookup_insert_ne; [done|].
      intros <-. congruence. }
    destruct (Hall k v) as [tensor Hres]; [by rewrite lookup_insert_eq|].
    assert (ex1 !! k = examples !! k) as Hsame.
    { pose proof (reset_paddings_lookup m sizes examples ex1 Hex1 k) as Hl.
      by rewrite Hk in Hl. }
    destruct (reset_padding_ok sizes k v ex1 tensor) as (new & Hnew & _).
    { destruct Hres as (sz & q & B & F & W & Hres & Hrest).
      exists sz, q, B, F, W. by rewrite Hsame. }
    unfold reset_paddings in *. rewrite map_fold_insert_first_key by done.
    rewrite Hex1, Hnew. by eexists.
Qed.


(** The padding reset touches the registered fields and nothing else, and
    treats each of them on its own: a field that is not registered comes out
    as the decoder gave it; a registered field keeps its type, its static
    shape and its shape, and its new value is the one that resetting this
    field alone gives, whatever the other fields are and in whatever order
    the fields are visited. *)
Theorem reset_touches_registered_fields_only (pv : gmap string pyval) sizes
    (examples out : gmap string Feature) :
  reset_paddings pv examples sizes = Ok out ->
  (forall j, pv !! j = None -> out !! j = examples !! j) /\
  (forall j v, pv !! j = Some v ->
     exists tensor new,
       examples !! j = Some (Dense tensor) /\
       out !! j = Some (Dense (MkTensor (t_dtype tensor) (static_shape tensor) new)) /\
       shape new = shape (value tensor) /\
       reset_padding sizes j v (Ok {[ j := Dense tensor ]}) =
         Ok {[ j := Dense (MkTensor (t_dtype tensor) (static_shape tensor) new) ]}).
Proof.
  intros Hout. split.
  - intros j Hj. pose proof (reset_paddings_lookup _ _ _ _ Hout j) as Hl.
    by rewrite Hj in Hl.
  - intros j v Hj. pose proof (reset_paddings_lookup _ _ _ _ Hout j) as Hl.
    rewrite Hj in Hl. destruct Hl as (t' & Hr & Hj').
    destruct (reset_padding_inv _ _ _ _ _ Hr)
      as (tensor & new & Heq & Hshp & (sz & q & B & F & W & Hk & _)).
    assert (t' = Dense (MkTensor (t_dtype tensor) (static_shape tensor) new)) as ->.
    { apply (f_equal (fun m : gmap string Feature => m !! j)) in Heq.
      rewrite !lookup_insert_eq in Heq. by injection Heq. }
    exists tensor, new. split; [done|]. split; [done|]. split; [done|].
    destruct (reset_padding_local sizes j v examples {[ j := Dense tensor ]} _
                (eq_trans (lookup_singleton_eq j (Dense tensor)) (eq_sym Hk)) Hr)
      as (t'' & Heq' & Hone).
    apply (f_equal (fun m : gmap string Feature => m !! j)) in Heq'.
    rewrite !lookup_insert_eq in Heq'. injection Heq' as <-.
    by rewrite insert_singleton_eq in Hone.
Qed.

(** The decoder is called at most once. When a spec of Fixed kind has a
    default that does not resolve to a scalar, it is not called at all and
    the function raises ValueError. Otherwise it is called once, with the
    serialized batch and the context specs as given and with the example
    specs where every spec of Fixed kind is replaced by the sequence spec of
    the same shape and type, with [allow_missing] set and no default, and
    every other spec is passed as it is. *)
Theorem decoder_call s list_size ctx (ex : gmap string FeatureSpec) :
  (exists k shp dt dv,
     ex !! k = Some (FixedLenFeature shp dt dv) /\
     _get_scalar_default_value dt dv = Raise ValueError /\
     parse_from_sequence_example s list_size ctx ex = ([], Raise ValueError)) \/
  (map_Forall (fun _ sp => resolvable sp) ex /\
   exists sequence_features,
     (parse_from_sequence_example s list_size ctx ex).1 =
       [ParseSequenceExample s ctx sequence_features] /\
     forall k, sequence_features !! k =
       match ex !! k with
       | Some (FixedLenFeature shp dt _) => Some (FixedLenSequenceFeature shp dt true PNone)
       | other => other
       end).
Proof.
  unfold parse_from_sequence_example. rewrite collect_specs_spec.
  destruct (decide (map_Forall (fun _ sp => resolvable sp) ex)) as [Hall|Hnot].
  - right. split; [done|]. eexists. split; [done|]. intros k.
    rewrite lookup_union, lookup_omap.
    destruct (ex !! k) as [[shp dt dv|dt|shp dt am dv]|]; done.
  - left. apply map_not_Forall in Hnot as (k & sp & Hk & Hsp); [|apply _].
    destruct sp as [shp dt dv|dt|shp dt am dv]; simpl in Hsp; try done.
    exists k, shp, dt, dv. split; [done|]. split; [|done].
    destruct (_get_scalar_default_value dt dv) as [x|e] eqn:Hs.
    + destruct Hsp. by exists x.
    + by apply _get_scalar_default_value_raise in Hs as [-> _].
Qed.

Lemma reset_paddings_field (pv : gmap string pyval) sizes
    (examples out : gmap string Feature) :
  reset_paddings pv examples sizes = Ok out ->
  forall j,
    match examples !! j with
    | None => out !! j = None
    | Some t =>
        exists t', out !! j = Some t' /\
          (is_dense t <-> is_dense t') /\
          feature_dtype t' = feature_dtype t /\
          tf_shape t' = tf_shape t /\
          feature_static t' = feature_static t /\
          (pv !! j = None -> t' = t) /\
          (is_Some (pv !! j) -> is_dense t)
    end.
Proof.
  intros Hout j. pose proof (reset_paddings_lookup _ _ _ _ Hout j) as Hl.
  destruct (pv !! j) as [v|] eqn:Hj.
  - destruct Hl as (t' & Hr & Hj').
    destruct (reset_padding_inv _ _ _ _ _ Hr)
      as (tensor & new & Heq & Hshp & (sz & q & B & F & W & Hk & _)).
    apply (f_equal (fun m : gmap string Feature => m !! j)) in Heq.
    rewrite !lookup_insert_eq in Heq. injection Heq as ->.
    rewrite Hk. eexists. split; [done|]. by repeat split.
  - rewrite Hl. destruct (examples !! j) as [t|]; [|done].
    exists t. repeat split; try done; by intros [? ?].
Qed.

Lemma sparse_slice_bounds (rest : list nat) :
  zip_with (fun d (bs : nat * nat) => Nat.min bs.2 (d - bs.1)) rest
           (zip (replicate (length rest) 0%nat) rest) = rest.
Proof. induction rest as [|d rest IH]; simpl; [done|]. rewrite IH. f_equal. lia. Qed.

Lemma normalize_keeps gm spec L La k t t' :
  normalize gm spec L La k t = Ok t' ->
  (is_dense t <-> is_dense t') /\
  feature_dtype t' = feature_dtype t /\
  tf_shape t' = <[1%nat := L]> (tf_shape t) /\
  feature_static t' = (fun st => <[1%nat := La]> st) <$> feature_static t.
Proof.
  unfold normalize, num_frames_of. intros Hn. bind_ok Hn.
  apply of_option_ok in E, E0.
  destruct (decide (L < a)%nat) as [Hlt|Hge].
  - destruct t as [d|st]; simpl in *.
    + bind_ok E2. injection E2 as <-. bind_ok Hn. injection Hn as <-.
      unfold tf_slice in E3. case_decide; [|done]. injection E3 as <-.
      unfold set_second in E2. case_decide; [|done]. injection E2 as <-.
      simpl. repeat split; try done.
      by destruct (shape (value d)) as [|d0 [|F rest]]; simplify_eq/=.
    + bind_ok E2. injection E2 as <-. injection Hn as <-.
      unfold tf_sparse_slice in E3. case_decide as Hlen; [|done]. injection E3 as <-.
      simpl. repeat split; try done.
      clear Hlen.
      destruct (dense_shape st) as [|d0 [|F rest]]; simplify_eq/=.
      rewrite sparse_slice_bounds. f_equal; [lia|]. f_equal. lia.
  - destruct t as [d|st]; simpl in *.
    + bind_ok E2. injection E2 as <-. bind_ok Hn. injection Hn as <-.
      unfold tf_pad in E4. case_decide as Hlen; [|done]. injection E4 as <-.
      unfold set_second in E2. case_decide; [|done]. injection E2 as <-.
      simpl. repeat split; try done.
      destruct (shape (value d)) as [|d0 [|F rest]]; simplify_eq/=.
      rewrite length_replicate in Hlen. rewrite Hlen, padded_shape_zero.
      f_equal; [lia|]. f_equal. lia.
    + bind_ok E2. injection E2 as <-. injection Hn as <-.
      unfold tf_sparse_reset_shape in E3. repeat case_decide; try done.
      injection E3 as <-. simpl. repeat split; try done.
      by destruct (dense_shape st) as [|d0 [|F rest]]; simplify_eq/=.
Qed.

(** No field is lost, invented or changed in kind: the keys of the output
    are the keys of the context and of the per-position fields the decoder
    returned; a per-position field stays dense or sparse as it was and keeps
    its element type; of its shape only the second dimension changes, to the
    one target length of the batch; and of the static shape of a dense field
    only the second entry changes, to the effective [list_size]. *)
Theorem parse_keeps_fields s list_size ctx ex tr out context examples sizes :
  parse_from_sequence_example s list_size ctx ex = (tr, Ok out) ->
  parse_sequence_example s ctx (omap sequence_spec_of ex ∪ ex)
    = Ok (context, examples, sizes) ->
  (forall k, is_Some (out !! k) <-> is_Some (context !! k) \/ is_Some (examples !! k)) /\
  exists L, forall k t, examples !! k = Some t ->
    exists t', out !! k = Some t' /\
      (is_dense t <-> is_dense t') /\
      feature_dtype t' = feature_dtype t /\
      tf_shape t' = <[1%nat := L]> (tf_shape t) /\
      feature_static t' =
        (fun st => <[1%nat := effective_list_size list_size]> st) <$> feature_static t.
Proof.
  unfold parse_from_sequence_example. rewrite collect_specs_spec.
  case_decide; [|done]. intros [= <- Hrun] Hdec. rewrite Hdec in Hrun.
  simpl in Hrun. bind_ok Hrun.
  pose proof (reset_paddings_field _ _ _ _ E) as Hfield.
  destruct (normalize_all_spec _ _ _ _ _ _ _ Hrun) as [Hin Hout]. split.
  - intros k. specialize (Hfield k). destruct (examples !! k) as [t|] eqn:Hk.
    + destruct Hfield as (t1 & Hk1 & _). destruct (Hin _ _ Hk1) as (t2 & _ & Hk2).
      rewrite Hk2. split; eauto.
    + rewrite (Hout k Hfield). split; [by left|]. by intros [?|[? ?]].
  - exists a0. intros k t Hk. specialize (Hfield k). rewrite Hk in Hfield.
    destruct Hfield as (t1 & Hk1 & Hd & Hdt & Hshp & Hst & _).
    destruct (Hin _ _ Hk1) as (t2 & Hn & Hk2).
    destruct (normalize_keeps _ _ _ _ _ _ _ Hn) as (Hd' & Hdt' & Hshp' & Hst').
    exists t2. split; [done|]. rewrite Hd, Hdt', Hshp', Hst', Hdt, Hshp, Hst. done.
Qed.

Lemma normalize_pad_sparse gm spec L La k (st : SparseTensor) t' F :
  normalize gm spec L La k (Sparse st) = Ok t' ->
  dense_shape st !! 1%nat = Some F -> (F <= L)%nat ->
  exists st', t' = Sparse st' /\ indices st' = indices st /\ values st' = values st.
Proof.
  unfold normalize, num_frames_of. cbn [tf_shape]. intros Hn HF Hle.
  rewrite HF in Hn. cbn [of_option mbind result_bind] in Hn. bind_ok Hn.
  rewrite decide_False in E0 by lia. simpl in E0. bind_ok E0. injection E0 as <-.
  unfold tf_sparse_reset_shape in E1. repeat case_decide; try done.
  injection E1 as <-. injection Hn as <-. by eexists.
Qed.

Lemma normalize_pad_dense gm spec L La k (d : Tensor) t' (B F : nat) (inner : list nat) :
  normalize gm spec L La k (Dense d) = Ok t' ->
  shape (value d) = B :: F :: inner -> wf_ndarray (value d) -> (F <= L)%nat ->
  exists d' c, t' = Dense d' /\
    pad_value spec k (t_dtype d) = Ok c /\
    shape (value d') = B :: L :: inner /\
    forall b f, (b < B)%nat -> (f < L)%nat ->
      frame (value d') b f = if decide (f < F)%nat then frame (value d) b f
                             else replicate (prod_list inner) c.
Proof.
  unfold normalize, num_frames_of. cbn [tf_shape rank_of]. intros Hn Hshp Hwf Hle.
  rewrite Hshp in Hn. cbn [lookup list_lookup of_option mbind result_bind] in Hn.
  bind_ok Hn. rewrite decide_False in E0 by lia. unfold pad_fn in E0. bind_ok E0.
  injection E0 as <-. cbn [static_shape t_dtype value] in Hn. bind_ok Hn.
  injection Hn as <-.
  assert (length (static_shape d) - 2 = length inner)%nat as Hrank.
  { unfold tf_pad in E2. case_decide as Hlen; [|done].
    rewrite Hshp in Hlen. simpl in Hlen. rewrite length_replicate in Hlen. lia. }
  rewrite Hrank in E2. cbn [app] in E2.
  destruct (tf_pad_frames (value d) B F (L - F) inner a1 Hshp Hwf) as (r & Hr & Hs & Hfr).
  rewrite Hr in E2. injection E2 as <-.
  eexists _, a1. split; [done|]. split; [done|]. cbn [value].
  replace (F + (L - F))%nat with L in * by lia. split; [done|].
  intros b f Hb Hf. by apply Hfr.
Qed.

(** With no effective [list_size] nothing is cut off: the target length is
    the largest number of positions in the batch, so every field is padded.
    A sparse field keeps every entry, and a dense field that is not
    registered for the padding reset keeps every frame the decoder gave. *)
Theorem dynamic_list_size_never_truncates s list_size ctx ex tr out
    context examples sizes :
  effective_list_size list_size = None ->
  parse_from_sequence_example s list_size ctx ex = (tr, Ok out) ->
  parse_sequence_example s ctx (omap sequence_spec_of ex ∪ ex)
    = Ok (context, examples, sizes) ->
  (forall k st, examples !! k = Some (Sparse st) ->
     exists st', out !! k = Some (Sparse st') /\
       indices st' = indices st /\ values st' = values st) /\
  (forall k d (B F : nat) (inner : list nat),
     examples !! k = Some (Dense d) ->
     ex !! k ≫= padding_value_of = None ->
     shape (value d) = B :: F :: inner -> wf_ndarray (value d) ->
     exists d', out !! k = Some (Dense d') /\
       forall b f, (b < B)%nat -> (f < F)%nat ->
         frame (value d') b f = frame (value d) b f).
Proof.
  intros Heff. unfold parse_from_sequence_example. rewrite collect_specs_spec, Heff.
  case_decide; [|done]. intros [= <- Hrun] Hdec. rewrite Hdec in Hrun.
  simpl in Hrun. bind_ok Hrun.
  pose proof (reset_paddings_field _ _ _ _ E) as Hfield.
  destruct (normalize_all_spec _ _ _ _ _ _ _ Hrun) as [Hin _].
  assert (forall k t n, a !! k = Some t -> tf_shape t !! 1%nat = Some n -> (n <= a0)%nat)
    as Hmax.
  { intros k t n Hk Hn.
    destruct (list_size_dynamic_max a a0 E0) as [Hle _]; [by intros ->|].
    by apply (Hle k t n). }
  split.
  - intros k st Hk. specialize (Hfield k). rewrite Hk in Hfield.
    destruct Hfield as (t1 & Hk1 & _ & _ & _ & _ & Hsame & Hreg).
    assert (t1 = Sparse st) as ->.
    { apply Hsame. destruct (omap padding_value_of ex !! k) eqn:Hpv; [|done].
      by destruct Hreg. }
    destruct (Hin _ _ Hk1) as (t2 & Hn & Hk2).
    destruct (dense_shape st !! 1%nat) as [F|] eqn:HF; cycle 1.
    { unfold normalize, num_frames_of in Hn. cbn [tf_shape] in Hn.
      by rewrite HF in Hn. }
    destruct (normalize_pad_sparse _ _ _ _ _ _ _ F Hn HF) as (st' & -> & Hi & Hv).
    { by apply (Hmax k (Sparse st) F). }
    by exists st'.
  - intros k d B F inner Hk Hpv Hshp Hwf. specialize (Hfield k). rewrite Hk in Hfield.
    destruct Hfield as (t1 & Hk1 & _ & _ & _ & _ & Hsame & _).
    rewrite lookup_omap in Hsame. specialize (Hsame Hpv). subst t1.
    destruct (Hin _ _ Hk1) as (t2 & Hn & Hk2).
    destruct (normalize_pad_dense _ _ _ _ _ _ _ B F inner Hn Hshp Hwf)
      as (d' & c & -> & _ & _ & Hfr).
    { apply (Hmax k (Dense d) F); [done|]. simpl. by rewrite Hshp. }
    exists d'. split; [done|]. intros b f Hb Hf.
    rewrite Hfr; [by rewrite decide_True|done|].
    assert (F <= a0)%nat; [|lia].
    apply (Hmax k (Dense d) F); [done|]. simpl. by rewrite Hshp.
Qed.

Lemma reset_padding_data sizes k v (examples : gmap string Feature) tensor
    (B F : nat) (sz : ndarray Z) (q : Q) :
  examples !! k = Some (Dense tensor) ->
  length (static_shape tensor) = 3%nat ->
  shape (value tensor) = [B; F; 1]%nat ->
  wf_ndarray (value tensor) ->
  sizes !! k = Some sz ->
  length (data sz) = B ->
  constant_of (t_dtype tensor) v = Ok (ENum q) ->
  exists new,
    reset_padding sizes k v (Ok examples) =
      Ok (<[k := Dense (MkTensor (t_dtype tensor) (static_shape tensor) new)]> examples) /\
    shape new = [B; F; 1]%nat /\
    (length (data new) <= B * F)%nat /\
    forall b f n, (b < B)%nat -> (f < F)%nat -> data sz !! b = Some n ->
      exists x, data (value tensor) !! (b * F + f)%nat = Some x /\
        data new !! (b * F + f)%nat =
          Some (if (Z.of_nat f <? n)%Z then x else ENum q).
Proof.
  intros Hk Hrank Hshp Hwf Hsz Hlen Hc.
  unfold wf_ndarray in Hwf. rewrite Hshp in Hwf. simpl in Hwf.
  unfold reset_padding. cbn [mbind result_bind]. rewrite Hk.
  cbn [of_option mbind result_bind]. rewrite decide_True by done.
  rewrite Hsz, Hshp. cbn [of_option mbind result_bind lookup list_lookup].
  unfold tf_tile, tf_range. cbn [shape data mbind result_bind].
  unfold tf_reshape. cbn [data]. rewrite decide_True; cycle 1.
  { rewrite length_join_replicate, length_map, length_seq. simpl. lia. }
  cbn [mbind result_bind]. unfold tf_less, tf_reshape_column.
  cbn [shape data]. rewrite Hlen.
  assert (broadcast_shape [B; F; 1]%nat [B; 1; 1]%nat = Some [B; F; 1]%nat) as ->.
  { simpl. destruct (decide (F = 1%nat)) as [->|HF]; simpl;
      by rewrite decide_True. }
  cbn [of_option mbind result_bind].
  rewrite (scalar_times_ones_constant v tensor q) by done. cbn [mbind result_bind].
  unfold tf_where. cbn [shape data]. rewrite Hshp.
  rewrite decide_True by done. cbn [mbind result_bind].
  eexists. split; [done|]. split; [done|]. cbn [data]. split.
  { rewrite !length_zip_with, length_map. lia. }
  intros b f n Hb Hf Hn.
  destruct (lookup_lt_is_Some_2 (data (value tensor)) (b * F + f)) as [x Hx]; [nia|].
  exists x. split; [done|].
  rewrite lookup_zip_with, lookup_zip_with, lookup_zip_with.
  rewrite broadcast_data_same; cycle 1.
  { rewrite length_join_replicate, length_map, length_seq. simpl. lia. }
  rewrite lookup_tiled_range by done.
  rewrite (lookup_broadcast_sizes B F b f (data sz) n) by done.
  rewrite Hx. change (map ?g ?l) with (g <$> l).
  rewrite list_lookup_fmap, Hx. simpl.
  by destruct (Z.of_nat f <? n)%Z.
Qed.

Lemma lookup_length_ge {A} (l : list A) (n : nat) :
  (forall i, (i < n)%nat -> is_Some (l !! i)) -> (n <= length l)%nat.
Proof.
  intros Hl. destruct n as [|n]; [lia|].
  destruct (Hl n) as [x Hx]; [lia|]. apply lookup_lt_Some in Hx. lia.
Qed.

Lemma normalize_dense_frames gm spec L La k (d : Tensor) t' (B F : nat)
    (inner : list nat) :
  normalize gm spec L La k (Dense d) = Ok t' ->
  shape (value d) = B :: F :: inner -> wf_ndarray (value d) ->
  exists d', t' = Dense d' /\
    shape (value d') = B :: L :: inner /\
    forall b f, (b < B)%nat -> (f < L)%nat ->
      if decide (f < F)%nat then frame (value d') b f = frame (value d) b f
      else exists c, pad_value spec k (t_dtype d) = Ok c /\
                     frame (value d') b f = replicate (prod_list inner) c.
Proof.
  intros Hn Hshp Hwf. destruct (decide (L < F)%nat) as [Hlt|Hge]; cycle 1.
  - destruct (normalize_pad_dense _ _ _ _ _ _ _ B F inner Hn Hshp Hwf)
      as (d' & c & -> & Hc & Hs & Hfr); [lia|].
    exists d'. split; [done|]. split; [done|]. intros b f Hb Hf.
    rewrite Hfr by done. case_decide; [done|]. by exists c.
  - revert Hn. unfold normalize, num_frames_of. cbn [tf_shape rank_of]. intros Hn.
    rewrite Hshp in Hn. cbn [lookup list_lookup of_option mbind result_bind] in Hn.
    bind_ok Hn. rewrite decide_True in E0 by done. unfold truncate_fn in E0.
    bind_ok E0. injection E0 as <-. cbn [static_shape t_dtype value] in Hn.
    bind_ok Hn. injection Hn as <-.
    assert (length (static_shape d) = 2 + length inner)%nat as Hrank.
    { unfold tf_slice in E1. case_decide as Hok; [|done].
      destruct Hok as [Hlen _]. rewrite Hshp, length_replicate in Hlen. by simpl in Hlen. }
    rewrite Hrank in E1. cbn [app drop] in E1. rewrite drop_0 in E1.
    destruct (tf_slice_frames (value d) B F L inner Hshp Hwf) as (r & Hr & Hs & Hfr);
      [lia|].
    rewrite Hr in E1. injection E1 as <-.
    eexists. split; [done|]. split; [done|]. intros b f Hb Hf. cbn [value].
    rewrite decide_True by lia. by apply Hfr.
Qed.

(** The purpose of the padding reset and of the padding, end to end. For a
    registered field of one value per position, in every row of the output
    the positions before the true length of the row (and before the target
    length) hold what the decoder gave, and every later position, whether
    the decoder filled it or the padding added it, holds the default of the
    spec. The target length is the effective [list_size] when there is
    one. *)
Theorem registered_default_fills_positions s list_size ctx ex tr out
    context examples sizes k shp dt dv v tensor (B F : nat) (sz : ndarray Z) :
  parse_from_sequence_example s list_size ctx ex = (tr, Ok out) ->
  parse_sequence_example s ctx (omap sequence_spec_of ex ∪ ex)
    = Ok (context, examples, sizes) ->
  ex !! k = Some (FixedLenFeature shp dt dv) ->
  _get_scalar_default_value dt dv = Ok v ->
  non_trivial v = true ->
  examples !! k = Some (Dense tensor) ->
  shape (value tensor) = [B; F; 1]%nat ->
  wf_ndarray (value tensor) ->
  sizes !! k = Some sz ->
  length (data sz) = B ->
  exists r L q,
    out !! k = Some (Dense r) /\
    shape (value r) = [B; L; 1]%nat /\
    (forall n, effective_list_size list_size = Some n -> L = n) /\
    constant_of (t_dtype tensor) v = Ok (ENum q) /\
    forall b f n, (b < B)%nat -> (f < L)%nat -> data sz !! b = Some n ->
      frame (value r) b f =
        if decide ((f < F)%nat /\ (Z.of_nat f < n)%Z) then frame (value tensor) b f
        else [ENum q].
Proof.
  unfold parse_from_sequence_example. rewrite collect_specs_spec.
  case_decide; [|done]. intros [= <- Hrun] Hdec Hex Hget Hnt Hk Hshp Hwf Hsz Hlen.
  rewrite Hdec in Hrun. simpl in Hrun. bind_ok Hrun.
  pose proof (reset_paddings_lookup _ _ _ _ E k) as Hl.
  assert (omap padding_value_of ex !! k = Some v) as Hpv.
  { rewrite lookup_omap, Hex. simpl. by rewrite Hget, Hnt. }
  rewrite Hpv in Hl. destruct Hl as (t1 & Hr & Hk1).
  destruct (reset_padding_inv _ _ _ _ _ Hr)
    as (tensor' & _ & _ & _ & (sz' & q & B' & F' & W' & Hk' & Hrank & _ & _ & _ & _ & Hc)).
  rewrite Hk in Hk'. injection Hk' as <-.
  destruct (reset_padding_data sizes k v examples tensor B F sz q)
    as (new & Hr' & Hnshp & Hnlen & Hcells); try done.
  rewrite Hr' in Hr. injection Hr as Hr.
  apply (f_equal (fun m : gmap string Feature => m !! k)) in Hr.
  rewrite !lookup_insert_eq in Hr. injection Hr as <-.
  destruct (normalize_all_spec _ _ _ _ _ _ _ Hrun) as [Hin _].
  destruct (Hin _ _ Hk1) as (t2 & Hn & Hk2).
  assert (wf_ndarray new) as Hnwf.
  { unfold wf_ndarray. rewrite Hnshp. simpl. apply Nat.le_antisymm; [lia|].
    rewrite Nat.mul_1_r. apply lookup_length_ge. intros i Hi.
    assert (F <> 0)%nat as HF by (intros ->; lia).
    assert (i = (i / F) * F + i mod F)%nat as ->
      by (rewrite Nat.mul_comm; by apply Nat.div_mod).
    destruct (lookup_lt_is_Some_2 (data sz) (i / F)) as [n Hn'].
    { rewrite Hlen. apply Nat.Div0.div_lt_upper_bound. lia. }
    destruct (Hcells (i / F)%nat (i mod F)%nat n) as (x & _ & ->); [| |done|by eexists].
    - apply Nat.Div0.div_lt_upper_bound. lia.
    - by apply Nat.mod_upper_bound. }
  destruct (normalize_dense_frames _ _ _ _ _ _ _ B F [1%nat] Hn Hnshp Hnwf)
    as (r & -> & Hrshp & Hfr).
  exists r, a0, q. split; [done|]. split; [done|]. split.
  { intros n Heff. rewrite Heff in E0. by injection E0. }
  split; [done|].
  intros b f n Hb Hf Hn'. specialize (Hfr b f Hb Hf). cbn [value t_dtype] in Hfr.
  destruct (decide (f < F)%nat) as [HfF|HfF].
  - rewrite Hfr. unfold frame. rewrite Hnshp, Hshp.
    change (prod_list [1%nat]) with 1%nat. rewrite !chunk_one.
    destruct (Hcells b f n Hb HfF Hn') as (x & -> & ->).
    destruct (Z.ltb_spec (Z.of_nat f) n).
    + by rewrite decide_True.
    + rewrite decide_False; [done|]. lia.
  - destruct Hfr as (c & Hpad & ->). rewrite decide_False by tauto.
    unfold pad_value in Hpad. rewrite Hex in Hpad. simpl in Hpad.
    rewrite Hget in Hpad. simpl in Hpad. rewrite Hc in Hpad. by injection Hpad as <-.
Qed.

Lemma mapM_is_ok {A B} (f : A -> result B) (l : list A) :
  Forall (fun x => is_ok (f x)) l -> is_ok (mapM f l).
Proof.
  induction 1 as [|x l [y Hy] _ [ys Hys]]; simpl; [by eexists|].
  rewrite Hy. simpl. rewrite Hys. by eexists.
Qed.

Lemma normalize_all_ok gm spec L La (context examples : gmap string Feature) :
  (forall k t, examples !! k = Some t -> is_ok (normalize gm spec L La k t)) ->
  is_ok (normalize_all gm spec L La context examples).
Proof.
  unfold normalize_all.
  induction examples as [|k t m Hk Hfirst IH] using map_first_key_ind; intros Hall.
  - rewrite map_fold_empty. by eexists.
  - rewrite map_fold_insert_first_key by done.
    destruct IH as [features Hf].
    { intros k' t' Hk'. apply Hall. rewrite lookup_insert_ne; [done|].
      intros <-. congruence. }
    destruct (Hall k t) as [tensor Ht]; [by rewrite lookup_insert_eq|].
    rewrite Hf. simpl. rewrite Ht. by eexists.
Qed.

Lemma rest_le_rest (rest : list nat) : Forall2 le rest rest.
Proof. induction rest; by constructor. Qed.

Lemma slice_ok_prefix (d0 F L : nat) (rest : list nat) :
  (L <= F)%nat ->
  slice_ok (d0 :: F :: rest) (replicate (2 + length rest) 0%nat) (d0 :: L :: rest).
Proof.
  intros HL. unfold slice_ok. simpl. rewrite length_replicate.
  split; [done|]. split; [done|].
  constructor; [simpl; lia|]. constructor; [simpl; lia|].
  clear. induction rest as [|d rest IH]; simpl; constructor; [simpl; lia|done].
Qed.

Lemma normalize_ok gm spec L La k t :
  (2 <= length (tf_shape t))%nat ->
  match t with
  | Sparse _ => True
  | Dense d => length (static_shape d) = length (shape (value d)) /\
               is_ok (pad_value spec k (t_dtype d))
  end ->
  is_ok (normalize gm spec L La k t).
Proof.
  intros Hrank Ht. unfold normalize, num_frames_of.
  destruct (tf_shape t) as [|d0 [|F rest]] eqn:Hshp; simpl in Hrank; try lia.
  cbn [lookup list_lookup of_option mbind result_bind app drop]. rewrite drop_0.
  destruct t as [d|st]; cbn [tf_shape rank_of] in *.
  - destruct Ht as [Hlen [c Hc]]. rewrite Hc.
    assert (forall (r : result Feature),
              (if gm then Ok c else Ok (ENum 0)) ≫= (fun _ : elem => r) = r) as ->
      by (by destruct gm).
    rewrite Hlen, Hshp. cbn [length].
    assert (set_second (static_shape d) La = Ok (<[1%nat := La]> (static_shape d)))
      as Hset.
    { unfold set_second. rewrite decide_True; [done|]. rewrite Hlen, Hshp. simpl. lia. }
    destruct (decide (L < F)%nat) as [Hlt|Hge].
    + unfold truncate_fn, tf_slice. rewrite Hshp.
      rewrite decide_True by (apply slice_ok_prefix; lia).
      cbn [mbind result_bind static_shape]. rewrite Hset. by eexists.
    + unfold pad_fn. rewrite Hc. cbn [mbind result_bind]. unfold tf_pad.
      rewrite Hshp, decide_True; cycle 1.
      { simpl. by rewrite length_replicate, Nat.sub_0_r. }
      cbn [mbind result_bind static_shape]. rewrite Hset. by eexists.
  - cbn [mbind result_bind]. rewrite Hshp. cbn [length].
    destruct (decide (L < F)%nat) as [Hlt|Hge].
    + unfold truncate_fn, tf_sparse_slice. rewrite Hshp.
      rewrite decide_True; cycle 1.
      { simpl. by rewrite length_replicate. }
      by eexists.
    + unfold pad_fn, tf_sparse_reset_shape. rewrite Hshp.
      rewrite decide_True by done. rewrite decide_True; cycle 1.
      { constructor; [done|]. constructor; [lia|]. apply rest_le_rest. }
      by eexists.
Qed.

(** The parser returns on every batch that fits the specs: when every
    default resolves, the decoder returns, every registered field is in the
    batch and every per-position field fits its spec, the function calls the
    decoder once and returns a dictionary, whatever [list_size] is and
    whether it is traced or run eagerly. *)
Theorem parse_returns s list_size ctx ex context examples sizes :
  map_Forall (fun _ sp => resolvable sp) ex ->
  parse_sequence_example s ctx (omap sequence_spec_of ex ∪ ex)
    = Ok (context, examples, sizes) ->
  (forall k, is_Some (ex !! k ≫= padding_value_of) -> is_Some (examples !! k)) ->
  (forall k t, examples !! k = Some t -> fits ex examples sizes k t) ->
  exists out,
    parse_from_sequence_example s list_size ctx ex =
      ([ParseSequenceExample s ctx (omap sequence_spec_of ex ∪ ex)], Ok out).
Proof.
  intros Hall Hdec Hreg Hfits. unfold parse_from_sequence_example.
  rewrite collect_specs_spec, decide_True by done. rewrite Hdec.
  cbn [mbind result_bind post_process].
  destruct (reset_paddings_ok (omap padding_value_of ex) sizes examples) as [a Ha].
  { intros k v Hk. rewrite lookup_omap in Hk.
    destruct (Hreg k) as [t Ht]; [by rewrite Hk|].
    specialize (Hfits k t Ht). destruct t as [d|st]; simpl in Hfits.
    - destruct Hfits as (_ & _ & shp & dt & dv & pad_val & c & Hex & Hget & _ & Hres).
      rewrite Hex in Hk. simpl in Hk. rewrite Hget in Hk.
      destruct (non_trivial pad_val); [|done]. injection Hk as <-.
      exists d. by apply Hres.
    - destruct Hfits as [_ Hnone]. congruence. }
  rewrite Ha. cbn [mbind result_bind].
  pose proof (reset_paddings_field _ _ _ _ Ha) as Hfield.
  assert (forall k t, a !! k = Some t ->
            (2 <= length (tf_shape t))%nat /\
            match t with
            | Sparse _ => True
            | Dense d => length (static_shape d) = length (shape (value d)) /\
                         is_ok (pad_value ex k (t_dtype d))
            end) as Hgood.
  { intros k t1 Hk1. specialize (Hfield k).
    destruct (examples !! k) as [t|] eqn:Hk; [|congruence].
    destruct Hfield as (t1' & Hk1' & Hd & Hdt & Hshp & Hst & _).
    rewrite Hk1 in Hk1'. injection Hk1' as <-.
    specialize (Hfits k t Hk). rewrite Hshp.
    destruct t as [d|st], t1 as [d1|st1]; simpl in *; try tauto.
    destruct Hfits as (Hlen & Hrank & shp & dt & dv & pad_val & c & Hex & Hget & Hc & _).
    injection Hst as Hst. rewrite Hst, Hshp, Hdt. split; [done|]. split; [done|].
    exists c. unfold pad_value. rewrite Hex. simpl. rewrite Hget. simpl. done. }
  assert (exists L, match effective_list_size list_size with
                    | Some n => Ok n
                    | None => list_size_dynamic a
                    end = Ok L) as [L ->].
  { destruct (effective_list_size list_size) as [n|]; [by eexists|].
    unfold list_size_dynamic.
    destruct (mapM_is_ok (fun kt : string * Feature => num_frames_of kt.2)
                (map_to_list a)) as [dims ->]; [|by eexists].
    apply Forall_forall. intros [k t] Hkt. apply elem_of_map_to_list in Hkt.
    destruct (Hgood k t Hkt) as [Hrank _]. unfold num_frames_of. simpl.
    destruct (tf_shape t) as [|d0 [|F rest]]; simpl in *; try lia. by eexists. }
  cbn [mbind result_bind].
  destruct (normalize_all_ok graph_mode ex L (effective_list_size list_size) context a)
    as [out ->]; [|by eexists].
  intros k t Hk. destruct (Hgood k t Hk). by apply normalize_ok.
Qed.

End ParseFurther.

(** ** The parser on concrete batches *)

(** From here on the serialized batch is the parsed batch itself. *)
#[local] Existing Instance given_batch.

(** C3, where the code departs from the claim: the field is registered with
    the default -1, and the padding reset raises instead of returning the
    batch with the two values of the one real position unchanged. *)
Theorem reset_padding_fails_on_wide_feature :
  (exists fixed, collect_specs wide_spec
                 = Ok (fixed, {[ "embedding" := PFloat (inject_Z (-1)) ]})) /\
  reset_paddings {[ "embedding" := PFloat (inject_Z (-1)) ]} wide_batch.1.2 wide_batch.2
    = Raise InvalidArgumentError /\
  (parse_from_sequence_example wide_batch None ∅ wide_spec).2
    = Raise InvalidArgumentError.
Proof.
  split; [eexists; vm_compute; reflexivity|]. split; vm_compute; reflexivity.
Qed.

(** C1, refuted as stated. A context field whose key is also the key of a
    per-position field is replaced by it in the output; and a [list_size] of
    0, though given, is not the second dimension of the output. *)
Lemma context_overwritten_or_list_size_ignored :
  (exists out,
     (parse_from_sequence_example shared_key_batch (Some 3%Z) ∅ utility_specs).2 = Ok out /\
     out !! "utility" <> Some query_length) /\
  (exists out t,
     (parse_from_sequence_example example_batch (Some 0%Z) ∅ utility_specs).2 = Ok out /\
     out !! "utility" = Some (Dense t) /\
     shape (value t) !! 1%nat = Some 2%nat).
Proof.
  split.
  - eexists. split; [vm_compute; reflexivity|]. vm_compute. discriminate.
  - eexists _, _. split; [vm_compute; reflexivity|].
    split; vm_compute; reflexivity.
Qed.

Lemma normalized_batch_shape_witness :
  exists out L,
    (parse_from_sequence_example example_batch (Some 3%Z) ∅ utility_specs).2 = Ok out /\
    L = 3%nat /\
    out !! "query_length" = Some query_length /\
    forall k t', is_Some (example_batch.1.2 !! k) -> out !! k = Some t' ->
      tf_shape t' !! 1%nat = Some L.
Proof.
  pose (run := parse_from_sequence_example example_batch (Some 3%Z) ∅ utility_specs).
  assert (exists out, run = (run.1, Ok out)) as [out Hrun]
    by (vm_compute; eexists; reflexivity).
  destruct (normalized_batch_shape (decoder := given_batch)
              example_batch (Some 3%Z) ∅ utility_specs run.1 out
              example_batch.1.1 example_batch.1.2 example_batch.2 Hrun eq_refl)
    as [Hctx Hex].
  destruct Hex as (L & HL & Hall).
  { vm_compute. discriminate. }
  exists out, L. split; [unfold run in Hrun; by rewrite Hrun|].
  split; [exact HL|]. split; [|exact Hall].
  rewrite Hctx; vm_compute; reflexivity.
Defined.

Lemma nonpositive_list_size_is_dynamic_witness :
  parse_from_sequence_example example_batch (Some 0%Z) ∅ utility_specs
  = parse_from_sequence_example example_batch None ∅ utility_specs.
Proof.
  apply (nonpositive_list_size_is_dynamic (decoder := given_batch)
           example_batch 0%Z ∅ utility_specs).
  lia.
Defined.

(** C2, refuted as stated: the field is not registered, yet the position
    appended holds the declared default and not the empty string. *)
Lemma unregistered_text_default_is_padded :
  (exists fixed, collect_specs title_specs = Ok (fixed, ∅)) /\
  exists out t,
    (parse_from_sequence_example title_batch (Some 2%Z) ∅ title_specs).2 = Ok out /\
    out !! "title" = Some (Dense t) /\
    frame (value t) 0 0 = [EStr "x"] /\
    frame (value t) 0 1 = [EStr "abc"].
Proof.
  split; [eexists; vm_compute; reflexivity|].
  eexists _, _. split; [vm_compute; reflexivity|].
  split; [vm_compute; reflexivity|]. split; vm_compute; reflexivity.
Qed.

Lemma dense_truncate_or_pad_witness :
  exists r,
    normalize true utility_specs 3 (Some 3%nat) "utility" (Dense utility_batch)
      = Ok (Dense r) /\
    shape (value r) = [2; 3; 1]%nat /\
    frame (value r) 1 0 = frame (value utility_batch) 1 0 /\
    frame (value r) 1 2 = [num (-1)].
Proof.
  destruct (dense_truncate_or_pad true utility_specs 3 (Some 3%nat) "utility" utility_batch
              2 2 [1%nat] [1%nat] DT_FLOAT (PList [PFloat (inject_Z (-1))])
              (PFloat (inject_Z (-1))) (num (-1)))
    as [(r & Hn & Hs & Hfr) _].
  - reflexivity.
  - reflexivity.
  - reflexivity.
  - vm_compute. reflexivity.
  - reflexivity.
  - reflexivity.
  - exists r. split; [exact Hn|]. split; [exact Hs|]. split.
    + rewrite (Hfr 1%nat 0%nat) by lia. reflexivity.
    + rewrite (Hfr 1%nat 2%nat) by lia. reflexivity.
Defined.

(** C4, refuted as stated: for a string feature a default of two strings is
    no error, and the decoder is called. *)
Lemma string_default_never_raises :
  _get_scalar_default_value DT_STRING (PList [PStr "a"; PStr "b"])
    = Ok (PList [PStr "a"; PStr "b"]) /\
  (parse_from_sequence_example title_batch None ∅
     {[ "title" := FixedLenFeature [1%nat] DT_STRING (PList [PStr "a"; PStr "b"]) ]}).1
    <> [].
Proof. split; [reflexivity|]. vm_compute. discriminate. Qed.

Lemma default_error_before_decoding_witness :
  parse_from_sequence_example example_batch None ∅
    {[ "utility" := FixedLenFeature [1%nat] DT_FLOAT
                      (PList [PFloat (inject_Z 1); PFloat (inject_Z 2)]) ]}
  = ([], Raise ValueError).
Proof.
  apply (default_error_before_decoding (decoder := given_batch) example_batch None ∅
           {[ "utility" := FixedLenFeature [1%nat] DT_FLOAT
                             (PList [PFloat (inject_Z 1); PFloat (inject_Z 2)]) ]}
           "utility" [1%nat] DT_FLOAT
           (PList [PFloat (inject_Z 1); PFloat (inject_Z 2)])).
  - vm_compute. reflexivity.
  - discriminate.
Defined.

(** C5, refuted as stated: the scalar default [abc] is neither 0 nor the
    empty string, and the field is not registered. *)
Lemma text_default_not_registered :
  _get_scalar_default_value DT_STRING (PStr "abc") = Ok (PStr "abc") /\
  exists fixed, collect_specs title_specs = Ok (fixed, ∅).
Proof. split; [reflexivity|]. eexists. vm_compute. reflexivity. Qed.

Lemma padding_values_registered_witness :
  exists fixed padding_values,
    collect_specs utility_specs = Ok (fixed, padding_values) /\
    padding_values !! "utility" = Some (PFloat (inject_Z (-1))).
Proof.
  pose (r := collect_specs utility_specs).
  assert (exists fixed pv, r = Ok (fixed, pv)) as (fixed & pv & Hr)
    by (vm_compute; eexists _, _; reflexivity).
  exists fixed, pv. split; [exact Hr|].
  apply (padding_values_registered utility_specs fixed pv Hr).
  exists [1%nat], DT_FLOAT, (PList [PFloat (inject_Z (-1))]).
  split; [vm_compute; reflexivity|]. split; [reflexivity|]. split; reflexivity.
Defined.

Lemma sparse_truncate_or_pad_witness :
  exists r,
    normalize true ∅ 1 (Some 1%nat) "unigrams" (Sparse unigrams) = Ok (Sparse r) /\
    dense_shape r = [2; 1; 3]%nat /\
    zip (indices r) (values r) =
      [([0; 0; 0]%nat, EStr "tensorflow"); ([1; 0; 0]%nat, EStr "gbdt")].
Proof.
  destruct (sparse_truncate_or_pad true ∅ 1 (Some 1%nat) "unigrams" unigrams 2 2 [3%nat])
    as (r & Hn & Hs & Hkept).
  - reflexivity.
  - split; [reflexivity|]. repeat constructor.
  - exists r. split; [exact Hn|]. split; [exact Hs|].
    rewrite decide_True in Hkept by lia. destruct Hkept as [-> _]. reflexivity.
Defined.

Lemma reset_padding_width_one_witness :
  exists new,
    reset_padding example_batch.2 "utility" (PFloat (inject_Z (-1)))
                  (Ok example_batch.1.2)
      = Ok {[ "utility" := Dense (MkTensor DT_FLOAT [None; None; Some 1%nat] new) ]} /\
    frame new 1 0 = [num 2] /\
    frame new 1 1 = [num (-1)].
Proof.
  destruct (reset_padding_width_one example_batch.2 "utility" (PFloat (inject_Z (-1)))
              example_batch.1.2 utility_batch 2 2 (NdArray [2%nat] [2%Z; 1%Z])
              (inject_Z (-1)))
    as (new & Hr & _ & Hfr).
  - reflexivity.
  - reflexivity.
  - reflexivity.
  - reflexivity.
  - reflexivity.
  - reflexivity.
  - reflexivity.
  - exists new. split.
    + rewrite Hr. reflexivity.
    + split.
      * rewrite (Hfr 1%nat 0%nat 1%Z) by (lia || reflexivity). reflexivity.
      * rewrite (Hfr 1%nat 1%nat 1%Z) by (lia || reflexivity). reflexivity.
Defined.

Lemma normalize_same_length_witness :
  normalize false utility_specs 2 None "utility" (Dense utility_batch)
  = Ok (Dense utility_batch).
Proof.
  rewrite (normalize_same_length false utility_specs None "utility" utility_batch 2 2 [1%nat]
             [1%nat] DT_FLOAT (PList [PFloat (inject_Z (-1))])
             (PFloat (inject_Z (-1))) (num (-1))); reflexivity.
Defined.

(** ** The text aggregator's further properties on concrete lines *)

Lemma _libsvm_generate_shape_witness :
  length [inject_Z 1; _PADDING_LABEL; _PADDING_LABEL] = 3%nat /\
  forall k a, ({[ "1" := [[Qmake 5 10]; [0%Q]; [0%Q]] ]} : gmap string matrix) !! k = Some a ->
    length a = 3%nat /\ Forall (fun row => length row = 1%nat) a.
Proof.
  destruct (_libsvm_generate_shape (builtins := plain_builtins) tt 1 3
              [ <["1" := Qmake 5 10]> {[ "label" := inject_Z 1 ]} ]
              {[ "1" := [[Qmake 5 10]; [0%Q]; [0%Q]] ]}
              [inject_Z 1; _PADDING_LABEL; _PADDING_LABEL])
    as (Hl & _ & Hf).
  - vm_compute. reflexivity.
  - split; [exact Hl|exact Hf].
Defined.

Lemma _libsvm_generate_slots_witness :
  exists (shuffled : list doc) (features : gmap string matrix) (labels : list Q),
    (_libsvm_generate tt 2 1
       [ <["1" := Qmake 5 10]> {[ "label" := inject_Z 1 ]};
         <["2" := Qmake 9 10]> {[ "label" := inject_Z 0 ]} ]).1 = Ok (features, labels) /\
    Permutation [ <["1" := Qmake 5 10]> {[ "label" := inject_Z 1 ]};
                  <["2" := Qmake 9 10]> {[ "label" := inject_Z 0 ]} ] shuffled /\
    features !! "2" =
      Some (map (fun d : doc => [default 0%Q (d !! "2")]) (take 1 shuffled)
            ++ replicate (1 - length shuffled) [0%Q]).
Proof.
  destruct (_libsvm_generate_slots (builtins := plain_builtins) tt 2 1
              [ <["1" := Qmake 5 10]> {[ "label" := inject_Z 1 ]};
                <["2" := Qmake 9 10]> {[ "label" := inject_Z 0 ]} ])
    as (shuffled & features & labels & g' & Hrun & Hperm & _ & Hfeat).
  - intros d k v Hd Hk.
    assert (k = "label" \/ k = "1" \/ k = "2") as Hcases.
    { apply elem_of_cons in Hd as [-> | Hd].
      - destruct (decide (k = "1")) as [->|H1]; [tauto|].
        rewrite lookup_insert_ne in Hk by done.
        destruct (decide (k = "label")) as [->|H2]; [tauto|].
        by rewrite lookup_singleton_ne in Hk.
      - apply elem_of_cons in Hd as [-> | Hd]; [|by apply elem_of_nil in Hd].
        destruct (decide (k = "2")) as [->|H1]; [tauto|].
        rewrite lookup_insert_ne in Hk by done.
        destruct (decide (k = "label")) as [->|H2]; [tauto|].
        by rewrite lookup_singleton_ne in Hk. }
    destruct Hcases as [-> | [-> | ->]].
    + by left.
    + right. exists 0%nat. split; [lia|vm_compute; reflexivity].
    + right. exists 1%nat. split; [lia|vm_compute; reflexivity].
  - exists shuffled, features, labels. split; [by rewrite Hrun|].
    split; [exact Hperm|]. apply (Hfeat 1%nat). lia.
Defined.

Lemma inner_generator_groups_witness :
  exists (groups : list (list (Z * doc))) evs,
    (inner_generator 1 3 tt ["1 qid:5 1:0.5"; "0 qid:5 1:0.9"; "1 qid:7 1:0.1"]).1.1 = evs /\
    query_runs groups /\
    mjoin groups =
      [ (5%Z, <["1" := Qmake 5 10]> {[ "label" := inject_Z 1 ]});
        (5%Z, <["1" := Qmake 9 10]> {[ "label" := inject_Z 0 ]});
        (7%Z, <["1" := Qmake 1 10]> {[ "label" := inject_Z 1 ]}) ] /\
    finalized evs = map (map snd) groups /\ length (yields evs) = length groups.
Proof.
  destruct (inner_generator_groups (builtins := plain_builtins) 1 3 tt
              ["1 qid:5 1:0.5"; "0 qid:5 1:0.9"; "1 qid:7 1:0.1"]
              [ (5%Z, <["1" := Qmake 5 10]> {[ "label" := inject_Z 1 ]});
                (5%Z, <["1" := Qmake 9 10]> {[ "label" := inject_Z 0 ]});
                (7%Z, <["1" := Qmake 1 10]> {[ "label" := inject_Z 1 ]}) ])
    as (groups & evs & g' & Hrun & Hruns & Hjoin & Hfin & Hlen).
  - repeat (apply Forall2_cons; split;
      [split; [vm_compute; reflexivity|apply (bool_decide_unpack _); vm_compute; exact I]|]).
    apply Forall2_nil. done.
  - repeat (apply Forall_cons; split; [simpl; lia|]). apply Forall_nil. done.
  - discriminate.
  - exists groups, evs. split; [by rewrite Hrun|].
    exact (conj Hruns (conj Hjoin (conj Hfin Hlen))).
Defined.

Lemma negative_qids_are_merged_witness :
  exists a g',
    inner_generator 1 3 tt ["1 qid:-1 1:0.5"; "0 qid:-3 1:0.9"; "1 qid:7 1:0.1"] =
      ([Finalize [ <["1" := Qmake 5 10]> {[ "label" := inject_Z 1 ]};
                   <["1" := Qmake 9 10]> {[ "label" := inject_Z 0 ]};
                   <["1" := Qmake 1 10]> {[ "label" := inject_Z 1 ]} ]; Yield a],
       StopIteration, g').
Proof.
  destruct (negative_qids_are_merged (builtins := plain_builtins) 1 3 tt
              ["1 qid:-1 1:0.5"; "0 qid:-3 1:0.9"]
              [ ((-1)%Z, <["1" := Qmake 5 10]> {[ "label" := inject_Z 1 ]});
                ((-3)%Z, <["1" := Qmake 9 10]> {[ "label" := inject_Z 0 ]}) ]
              "1 qid:7 1:0.1" 7%Z (<["1" := Qmake 1 10]> {[ "label" := inject_Z 1 ]}))
    as (a & g' & Hrun).
  - repeat (apply Forall2_cons; split;
      [split; [vm_compute; reflexivity|apply (bool_decide_unpack _); vm_compute; exact I]|]).
    apply Forall2_nil. done.
  - repeat (apply Forall_cons; split; [simpl; lia|]). apply Forall_nil. done.
  - split; [vm_compute; reflexivity|apply (bool_decide_unpack _); vm_compute; exact I].
  - exists a, g'. exact Hrun.
Defined.

Lemma parse_error_loses_open_query_witness :
  exists evs left a g' g'',
    inner_generator 1 3 tt ["1 qid:5 1:0.5"; "0 qid:7 1:0.9"] =
      (evs ++ [Finalize left; Yield a], StopIteration, g'') /\
    inner_generator 1 3 tt ["1 qid:5 1:0.5"; "0 qid:7 1:0.9"; "1 qid:x 1:0.1"] =
      (evs, Raised ValueError, g').
Proof.
  apply (parse_error_loses_open_query (builtins := plain_builtins) 1 3 tt
           ["1 qid:5 1:0.5"; "0 qid:7 1:0.9"]
           [ (5%Z, <["1" := Qmake 5 10]> {[ "label" := inject_Z 1 ]});
             (7%Z, <["1" := Qmake 9 10]> {[ "label" := inject_Z 0 ]}) ]
           "1 qid:x 1:0.1" ValueError []).
  - repeat (apply Forall2_cons; split;
      [split; [vm_compute; reflexivity|apply (bool_decide_unpack _); vm_compute; exact I]|]).
    apply Forall2_nil. done.
  - vm_compute. reflexivity.
Defined.

Lemma short_line_raises_witness :
  _libsvm_parse_line "  " = Raise IndexError /\
  (inner_generator 1 3 tt ["1 qid:5 1:0.5"; "  "; "1 qid:7 1:0.1"]).1.2 = Raised IndexError.
Proof.
  apply (short_line_raises (builtins := plain_builtins) 1 3 tt
           ["1 qid:5 1:0.5"]
           [ (5%Z, <["1" := Qmake 5 10]> {[ "label" := inject_Z 1 ]}) ]
           "  " ["1 qid:7 1:0.1"]).
  - repeat (apply Forall2_cons; split;
      [split; [vm_compute; reflexivity|apply (bool_decide_unpack _); vm_compute; exact I]|]).
    apply Forall2_nil. done.
  - vm_compute. lia.
Defined.

Lemma _libsvm_parse_line_grammar_witness :
  exists d : doc,
    _libsvm_parse_line "1 qid:5 1:0.5 1:0.25 label:3" = Ok (5%Z, d) /\
    d !! "1" = Some (Qmake 25 100) /\ d !! "label" = Some (inject_Z 3) /\ d !! "2" = None.
Proof.
  destruct (_libsvm_parse_line_grammar (builtins := plain_builtins)
              "1 qid:5 1:0.5 1:0.25 label:3" "1" "qid:5" ["1:0.5"; "1:0.25"; "label:3"]
              "5" 5%Z (inject_Z 1)
              [("1", Qmake 5 10); ("1", Qmake 25 100); ("label", inject_Z 3)])
    as (d & Hd & Hk).
  - vm_compute. reflexivity.
  - vm_compute. reflexivity.
  - vm_compute. reflexivity.
  - vm_compute. reflexivity.
  - repeat (apply Forall2_cons; split;
      [eexists; split; [vm_compute; reflexivity|vm_compute; reflexivity]|]).
    apply Forall2_nil. done.
  - exists d. split; [exact Hd|]. rewrite !Hk. repeat split.
Defined.

(** ** The parser's further properties on concrete batches *)

Lemma utility_resettable :
  resettable example_batch.1.2 example_batch.2 "utility" (PFloat (inject_Z (-1)))
             utility_batch.
Proof.
  exists (NdArray [2%nat] [2%Z; 1%Z]), (inject_Z (-1)), 2%nat, 2%nat, 1%nat.
  split; [reflexivity|]. split; [reflexivity|]. split; [reflexivity|].
  split; [by left|]. split; [reflexivity|]. split; [by left|]. reflexivity.
Defined.

Lemma example_batch_parses :
  exists tr out,
    parse_from_sequence_example example_batch (Some 3%Z) ∅ utility_specs = (tr, Ok out).
Proof.
  assert (match (parse_from_sequence_example example_batch (Some 3%Z) ∅ utility_specs).2
          with Ok _ => true | Raise _ => false end = true) as Hok
    by (vm_compute; reflexivity).
  destruct (parse_from_sequence_example _ _ _ _) as [tr [out|e]];
    [by exists tr, out|discriminate Hok].
Qed.

Lemma title_batch_parses :
  exists tr out,
    parse_from_sequence_example title_batch None ∅ title_specs = (tr, Ok out).
Proof.
  assert (match (parse_from_sequence_example title_batch None ∅ title_specs).2
          with Ok _ => true | Raise _ => false end = true) as Hok
    by (vm_compute; reflexivity).
  destruct (parse_from_sequence_example _ _ _ _) as [tr [out|e]];
    [by exists tr, out|discriminate Hok].
Qed.


Lemma reset_touches_registered_fields_only_witness :
  exists out new,
    reset_paddings {[ "utility" := PFloat (inject_Z (-1)) ]}
                   example_batch.1.2 example_batch.2 = Ok out /\
    out !! "utility" = Some (Dense (MkTensor DT_FLOAT [None; None; Some 1%nat] new)) /\
    shape new = [2; 2; 1]%nat /\
    out !! "other" = None.
Proof.
  pose (run := reset_paddings {[ "utility" := PFloat (inject_Z (-1)) ]}
                              example_batch.1.2 example_batch.2).
  assert (exists out, run = Ok out) as [out Hrun] by (vm_compute; eexists; reflexivity).
  destruct (reset_touches_registered_fields_only _ _ _ _ Hrun) as [Hnone Hsome].
  destruct (Hsome "utility" (PFloat (inject_Z (-1))) eq_refl)
    as (tensor & new & Hk & Hout & Hshp & _).
  injection Hk as <-.
  exists out, new. split; [exact Hrun|]. split; [exact Hout|]. split; [exact Hshp|].
  rewrite (Hnone "other" eq_refl). reflexivity.
Defined.

Lemma parse_keeps_fields_witness :
  exists out t',
    (parse_from_sequence_example example_batch (Some 3%Z) ∅ utility_specs).2 = Ok out /\
    (forall k, is_Some (out !! k) <-> k = "query_length" \/ k = "utility") /\
    out !! "utility" = Some t' /\
    feature_dtype t' = DT_FLOAT /\
    feature_static t' = Some [None; Some 3%nat; Some 1%nat].
Proof.
  destruct example_batch_parses as (tr & out & Hrun).
  destruct (parse_keeps_fields (decoder := given_batch)
              example_batch (Some 3%Z) ∅ utility_specs tr out
              example_batch.1.1 example_batch.1.2 example_batch.2 Hrun eq_refl)
    as [Hkeys (L & Hall)].
  destruct (Hall "utility" (Dense utility_batch) eq_refl)
    as (t' & Hk & _ & Hdt & _ & Hst).
  exists out, t'. split; [by rewrite Hrun|]. split.
  { intros k. rewrite Hkeys. simpl.
    rewrite !lookup_singleton_is_Some. split; intros [?|?]; auto. }
  split; [exact Hk|]. split; [exact Hdt|]. exact Hst.
Defined.

Lemma dynamic_list_size_never_truncates_witness :
  exists out d',
    (parse_from_sequence_example title_batch None ∅ title_specs).2 = Ok out /\
    out !! "title" = Some (Dense d') /\
    frame (value d') 0 0 = [EStr "x"].
Proof.
  destruct title_batch_parses as (tr & out & Hrun).
  destruct (dynamic_list_size_never_truncates (decoder := given_batch)
              title_batch None ∅ title_specs tr out
              title_batch.1.1 title_batch.1.2 title_batch.2 eq_refl Hrun eq_refl)
    as [_ Hdense].
  destruct (Hdense "title"
              (MkTensor DT_STRING [None; None; Some 1%nat] (NdArray [1; 1; 1]%nat [EStr "x"]))
              1%nat 1%nat [1%nat])
    as (d' & Hk & Hfr).
  - reflexivity.
  - reflexivity.
  - reflexivity.
  - reflexivity.
  - exists out, d'. split; [by rewrite Hrun|].
    split; [exact Hk|]. rewrite (Hfr 0%nat 0%nat) by lia. reflexivity.
Defined.

Lemma registered_default_fills_positions_witness :
  exists out r,
    (parse_from_sequence_example example_batch (Some 3%Z) ∅ utility_specs).2 = Ok out /\
    out !! "utility" = Some (Dense r) /\
    shape (value r) = [2; 3; 1]%nat /\
    frame (value r) 0 1 = [num 1] /\
    frame (value r) 1 1 = [num (-1)] /\
    frame (value r) 1 2 = [num (-1)].
Proof.
  destruct example_batch_parses as (tr & out & Hrun).
  destruct (registered_default_fills_positions (decoder := given_batch)
              example_batch (Some 3%Z) ∅ utility_specs tr out
              example_batch.1.1 example_batch.1.2 example_batch.2
              "utility" [1%nat] DT_FLOAT (PList [PFloat (inject_Z (-1))])
              (PFloat (inject_Z (-1))) utility_batch 2 2 (NdArray [2%nat] [2%Z; 1%Z])
              Hrun eq_refl)
    as (r & L & q & Hk & Hshp & HL & Hq & Hfr).
  - reflexivity.
  - reflexivity.
  - reflexivity.
  - reflexivity.
  - reflexivity.
  - reflexivity.
  - reflexivity.
  - reflexivity.
  - injection Hq as <-. rewrite (HL 3%nat eq_refl) in *.
    exists out, r. split; [by rewrite Hrun|].
    split; [exact Hk|]. split; [exact Hshp|]. split; [|split].
    + rewrite (Hfr 0%nat 1%nat 2%Z) by (lia || reflexivity). reflexivity.
    + rewrite (Hfr 1%nat 1%nat 1%Z) by (lia || reflexivity). reflexivity.
    + rewrite (Hfr 1%nat 2%nat 1%Z) by (lia || reflexivity). reflexivity.
Defined.

Lemma parse_returns_witness :
  exists out,
    parse_from_sequence_example example_batch None ∅ utility_specs =
      ([ParseSequenceExample example_batch ∅
          (omap sequence_spec_of utility_specs ∪ utility_specs)], Ok out).
Proof.
  apply (parse_returns (decoder := given_batch) example_batch None ∅ utility_specs
           example_batch.1.1 example_batch.1.2 example_batch.2).
  - apply map_Forall_singleton. by eexists.
  - reflexivity.
  - intros k [v Hv]. destruct (decide (k = "utility")) as [->|Hne]; [by eexists|].
    unfold utility_specs in Hv. by rewrite lookup_singleton_ne in Hv.
  - intros k t Hk. unfold example_batch in Hk. cbn [fst snd] in Hk.
    apply lookup_singleton_Some in Hk as [<- <-].
    split; [reflexivity|]. split; [simpl; lia|].
    exists [1%nat], DT_FLOAT, (PList [PFloat (inject_Z (-1))]),
           (PFloat (inject_Z (-1))), (num (-1)).
    split; [reflexivity|]. split; [reflexivity|]. split; [reflexivity|].
    intros _. exact utility_resettable.
Defined.
